(** * Medal table server: the fetch-normalize-rank pipeline of [server.js]

    A shallow embedding of the pipeline of [src/server.js]: the record
    normalizer [withScore], the ranking sorter [sortTeams], the three
    source extractors ([fetchApiJson], [parseFromHtml], [parseWikipedia]),
    the transport layer ([httpGetJson], [httpGetText]) and the fallback
    orchestrator [fetchMedals].

    - A JavaScript Number is an IEEE-754 binary64 value: Rocq's primitive
      [float], with the primitive operations.
    - A JavaScript String is a sequence of UTF-16 code units: [list N].
    - A thrown exception or rejected promise is the [Err] branch of
      [result]; [await] of a settled promise is sequencing.
    - The outside world (network, child process) answers through a
      [World] whose answers may depend on the calls made so far; every
      call is appended to a trace. *)

From Stdlib Require Import String Ascii.
From Stdlib Require Import DecimalString List ZArith NArith Bool Lia.
From Stdlib Require Import Floats Permutation Sorted.
Import ListNotations.

Open Scope list_scope.

(** ** Strings as sequences of UTF-16 code units *)

Definition ustring := list N.

(** The code units of a literal of the source (Basic Latin / Latin-1). *)
Definition u (s : string) : ustring :=
  map N_of_ascii (list_ascii_of_string s).

Definition ueqb (a b : ustring) : bool :=
  if list_eq_dec N.eq_dec a b then true else false.

(** ** Exceptions and results *)

Inductive exn :=
| Error (message : ustring)      (* [new Error(message)] raised by the program *)
| TypeError                      (* raised by the runtime on an ill-typed operation *)
| SyntaxError                    (* raised by [JSON.parse] *)
| Rejected (reason : N).         (* a rejection coming from the outside world *)

Inductive result (A : Type) :=
| OK (a : A)
| Err (e : exn).
Arguments OK {A} a.
Arguments Err {A} e.

Definition bind {A B} (r : result A) (f : A -> result B) : result B :=
  match r with
  | OK a => f a
  | Err e => Err e
  end.

Declare Scope result_scope.
Delimit Scope result_scope with result.
Notation "x <- c ;; k" := (bind c (fun x => k))
  (at level 61, c at next level, right associativity) : result_scope.

(** [try { body } catch (err) { handler err }] *)
Definition try_catch {A} (body : result A) (handler : exn -> result A) : result A :=
  match body with
  | OK a => OK a
  | Err e => handler e
  end.

(** [xs.map(f)] where the callback may throw: the first exception, in index
    order, aborts the map. *)
Fixpoint mapM {A B} (f : A -> result B) (l : list A) : result (list B) :=
  match l with
  | [] => OK []
  | x :: l' =>
      match f x with
      | Err e => Err e
      | OK y =>
          match mapM f l' with
          | Err e => Err e
          | OK ys => OK (y :: ys)
          end
      end
  end.

(** ** JavaScript values reachable in the pipeline

    The values of [JSON.parse], plus [undefined] (a missing array element or
    property). An object is its list of own properties. *)

#[local] Unset Elimination Schemes.
Inductive val :=
| VUndef
| VNull
| VBool (b : bool)
| VNum (x : float)
| VStr (s : ustring)
| VArr (elems : list val)
| VObj (props : list (ustring * val)).
#[local] Set Elimination Schemes.

Fixpoint own_property (props : list (ustring * val)) (k : ustring) : option val :=
  match props with
  | [] => None
  | (k', v) :: rest => if ueqb k' k then Some v else own_property rest k
  end.

(** *** Numbers *)

Definition isNaN (x : float) : bool := negb (PrimFloat.eqb x x).

(** [x !== y] on Numbers. *)
Definition num_neq (x y : float) : bool := negb (PrimFloat.eqb x y).

(** ToBoolean. *)
Definition truthy (v : val) : bool :=
  match v with
  | VUndef | VNull => false
  | VBool b => b
  | VNum x => negb (PrimFloat.eqb x 0%float || isNaN x)
  | VStr s => match s with [] => false | _ => true end
  | VArr _ | VObj _ => true
  end.

(** *** String to Number (ECMAScript StringToNumber)

    The text is trimmed of white space and line terminators; the empty
    text is [+0]; a StrNumericLiteral is rounded to the nearest double,
    ties to even; anything else is [NaN]. *)

Definition is_space (c : N) : bool :=
  ((9 <=? c) && (c <=? 13) || (c =? 32) || (c =? 160) || (c =? 5760)
   || (8192 <=? c) && (c <=? 8202) || (c =? 8232) || (c =? 8233)
   || (c =? 8239) || (c =? 8287) || (c =? 12288) || (c =? 65279))%N.

Fixpoint trimStart (s : ustring) : ustring :=
  match s with
  | c :: s' => if is_space c then trimStart s' else s
  | [] => []
  end.

Definition trimEnd (s : ustring) : ustring := rev (trimStart (rev s)).

(** [s.trim()] *)
Definition trim (s : ustring) : ustring := trimEnd (trimStart s).

Definition digit_of (radix : N) (c : N) : option N :=
  let d :=
    if ((48 <=? c) && (c <=? 57))%N then Some (c - 48)%N
    else if ((97 <=? c) && (c <=? 102))%N then Some (c - 87)%N
    else if ((65 <=? c) && (c <=? 70))%N then Some (c - 55)%N
    else None in
  match d with
  | Some n => if (n <? radix)%N then Some n else None
  | None => None
  end.

(** The longest prefix of digits of the radix, as digit values, and the rest. *)
Fixpoint span_digits (radix : N) (s : ustring) : list N * ustring :=
  match s with
  | c :: s' =>
      match digit_of radix c with
      | Some d => let '(ds, rest) := span_digits radix s' in (d :: ds, rest)
      | None => ([], s)
      end
  | [] => ([], [])
  end.

Definition digits_value (radix : N) (ds : list N) : N :=
  fold_left (fun acc d => (acc * radix + d)%N) ds 0%N.

Definition SF64 (m e : Z) : float := SF2Prim (binary_normalize prec emax m e false).

Definition signed (neg : bool) (x : float) : float :=
  if neg then (- x)%float else x.

(** The double nearest to [m * 10^e10]. For a negative exponent the
    quotient is taken with 64 significant bits and a sticky bit, which
    [binary_normalize] then rounds once, to nearest even. Exponents far
    outside the range of the format are settled without building the
    power of ten: [lo] and [hi] bound the decimal logarithm of the value
    from below and from above. *)
Definition decimal_to_float (neg : bool) (m : N) (e10 : Z) : float :=
  if (m =? 0)%N then signed neg 0%float
  else
    let l2 := Z.of_N (N.log2 m) in
    let lo := (l2 * 30102 / 100000 + e10)%Z in
    let hi := ((l2 + 1) * 30103 / 100000 + 1 + e10)%Z in
    if (310 <? lo)%Z then signed neg infinity
    else if (hi <? -330)%Z then signed neg 0%float
    else if (0 <=? e10)%Z then signed neg (SF64 (Z.of_N m * 10 ^ e10) 0)
    else
      let q := (10 ^ (- e10))%Z in
      let k := Z.max 0 (64 + Z.log2 q - Z.log2 (Z.of_N m)) in
      let n := (Z.of_N m * 2 ^ k / q)%Z in
      let r := (Z.of_N m * 2 ^ k mod q)%Z in
      signed neg (if (r =? 0)%Z then SF64 n (- k) else SF64 (2 * n + 1) (- k - 1)).

Definition strip_sign (s : ustring) : bool * ustring :=
  match s with
  | 43%N :: s' => (false, s')
  | 45%N :: s' => (true, s')
  | _ => (false, s)
  end.

(** ExponentPart, when present: the exponent and the rest; [None] when an
    exponent indicator is not followed by digits. *)
Definition exponent_part (s : ustring) : option (Z * ustring) :=
  match s with
  | c :: s' =>
      if ((c =? 101) || (c =? 69))%N then
        let '(neg, s'') := strip_sign s' in
        match span_digits 10 s'' with
        | ([], _) => None
        | (ds, rest) =>
            let e := Z.of_N (digits_value 10 ds) in
            Some (if neg then (- e)%Z else e, rest)
        end
      else Some (0%Z, s)
  | [] => Some (0%Z, [])
  end.

Definition StrDecimalLiteral (s : ustring) : float :=
  let '(neg, s1) := strip_sign s in
  if ueqb s1 (u "Infinity") then signed neg infinity
  else
    let '(ip, s2) := span_digits 10 s1 in
    let '(fp, s3) :=
      match s2 with
      | 46%N :: s2' => span_digits 10 s2'
      | _ => ([], s2)
      end in
    match ip ++ fp with
    | [] => nan
    | ds =>
        match exponent_part s3 with
        | Some (e, []) =>
            decimal_to_float neg (digits_value 10 ds) (e - Z.of_nat (length fp))
        | _ => nan
        end
    end.

Definition NonDecimalIntegerLiteral (radix : N) (s : ustring) : float :=
  match span_digits radix s with
  | (d :: ds, []) => SF64 (Z.of_N (digits_value radix (d :: ds))) 0
  | _ => nan
  end.

Definition StringToNumber (s : ustring) : float :=
  match trim s with
  | [] => 0%float
  | (48%N :: c :: rest) as t =>
      if ((c =? 120) || (c =? 88))%N then NonDecimalIntegerLiteral 16 rest
      else if ((c =? 111) || (c =? 79))%N then NonDecimalIntegerLiteral 8 rest
      else if ((c =? 98) || (c =? 66))%N then NonDecimalIntegerLiteral 2 rest
      else StrDecimalLiteral t
  | t => StrDecimalLiteral t
  end.

(** *** ToNumber on values

    [Number(v)]. An object or array is first converted to a primitive:
    [valueOf] of a parsed object or array returns the object itself, so the
    conversion falls to [toString]. A parsed object owning a property named
    [toString] (a non-callable value, with [Object.prototype.valueOf]
    returning the object) has no primitive form and the conversion throws a
    TypeError; any other object reads ["[object Object]"]. An array reads
    as its elements joined by commas. *)

(** The string form of a value, as far as StringToNumber can tell strings
    apart: an exact text, the text of a Number (which reads back as that
    Number, the sign of zero lost), or some text holding a comma. *)
Inductive strform :=
| SExact (s : ustring)
| SNumber (x : float)
| SComma.

Definition k_toString : ustring := u "toString".

Fixpoint ToStringForm (v : val) : result strform :=
  match v with
  | VUndef => OK (SExact (u "undefined"))
  | VNull => OK (SExact (u "null"))
  | VBool true => OK (SExact (u "true"))
  | VBool false => OK (SExact (u "false"))
  | VNum x => OK (SNumber x)
  | VStr s => OK (SExact s)
  | VObj props =>
      match own_property props k_toString with
      | Some _ => Err TypeError
      | None => OK (SExact (u "[object Object]"))
      end
  | VArr elems =>
      (* Array.prototype.join: [undefined] and [null] elements read as the
         empty text *)
      let element e :=
        match e with
        | VUndef | VNull => OK (SExact [])
        | _ => ToStringForm e
        end in
      match elems with
      | [] => OK (SExact [])
      | [e] => element e
      | _ =>
          (fix join (l : list val) : result strform :=
             match l with
             | [] => OK SComma
             | e :: l' =>
                 match element e with
                 | Err x => Err x
                 | OK _ => join l'
                 end
             end) elems
      end
  end.

Definition form_to_number (f : strform) : float :=
  match f with
  | SExact s => StringToNumber s
  | SNumber x => if PrimFloat.eqb x 0%float then 0%float else x
  | SComma => nan
  end.

(** [Number(v)] *)
Definition Number (v : val) : result float :=
  match v with
  | VUndef => OK nan
  | VNull => OK 0%float
  | VBool true => OK 1%float
  | VBool false => OK 0%float
  | VNum x => OK x
  | VStr s => OK (StringToNumber s)
  | VArr _ | VObj _ =>
      match ToStringForm v with
      | OK f => OK (form_to_number f)
      | Err e => Err e
      end
  end.

(** ** Record Normalizer: [withScore] *)

(** The object literals handed to [withScore]: the properties [code],
    [name], [gold], [silver], [bronze] of every call site, and [total],
    which only some call sites write ([None]: the literal has no [total]
    property). *)
Record RawRecord := {
  r_code : val;
  r_name : val;
  r_gold : val;
  r_silver : val;
  r_bronze : val;
  r_total : option val
}.

(** A Team. [total] is [None] when the object carries no (or a nullish)
    [total], the case [sortTeams] guards with [?? 0]. *)
Record Team := {
  code : val;
  name : val;
  gold : float;
  silver : float;
  bronze : float;
  total : option float;
  score : float
}.

(** [entry.total]: reading a missing property gives [undefined]. *)
Definition entry_total (entry : RawRecord) : val :=
  match r_total entry with
  | Some v => v
  | None => VUndef
  end.

Definition withScore (entry : RawRecord) : result Team :=
  (g <- Number (r_gold entry) ;;
   s <- Number (r_silver entry) ;;
   b <- Number (r_bronze entry) ;;
   t <- (if truthy (entry_total entry)
         then Number (entry_total entry)
         else OK (g + s + b)%float) ;;
   OK {| code := r_code entry;
         name := r_name entry;
         gold := g;
         silver := s;
         bronze := b;
         total := Some t;
         score := (g * 3 + s * 1.5 + b * 1)%float |})%result.

(** ** Ranking Sorter: [sortTeams] *)

(** [x ?? 0] *)
Definition nullish0 (x : option float) : float :=
  match x with
  | Some v => v
  | None => 0%float
  end.

(** The comparator of [sortTeams]. *)
Definition compareTeams (a b : Team) : float :=
  if num_neq (score b) (score a) then (score b - score a)%float
  else if num_neq (gold b) (gold a) then (gold b - gold a)%float
  else if num_neq (silver b) (silver a) then (silver b - silver a)%float
  else if num_neq (bronze b) (bronze a) then (bronze b - bronze a)%float
  else (nullish0 (total b) - nullish0 (total a))%float.

(** *** [Array.prototype.sort]

    ECMAScript's SortCompare reads a [NaN] answer of the comparator as
    [+0]. The sort is stable, and for a consistent comparator its result
    is the one stable ordering, whatever the algorithm: there the
    embedding is exact. It is written as straight insertion: from the
    last element to the first, each is inserted into the sorted rest,
    behind the leading elements the comparator puts before it.

    For an inconsistent comparator (the comparator of [sortTeams] is
    one when a key is [NaN]) ECMAScript leaves the order
    implementation-defined and engines arrange such input differently,
    so straight insertion is then one possible arrangement and no more.
    The order of the result is stated for Teams without a [NaN] key
    only. *)

Section ArraySort.
Context {A : Type}.
Variable comparefn : A -> A -> float.

Definition SortCompare (x y : A) : float :=
  let v := comparefn x y in
  if isNaN v then 0%float else v.

Fixpoint insert (x : A) (l : list A) : list A :=
  match l with
  | [] => [x]
  | y :: l' =>
      if (0 <? SortCompare x y)%float then y :: insert x l' else x :: l
  end.

Definition Array_sort (l : list A) : list A := fold_right insert [] l.
End ArraySort.

Definition sortTeams (teams : list Team) : list Team :=
  Array_sort compareTeams teams.

(** ** The runtime's library functions

    [JSON.parse] and the Unicode upper-casing behind
    [String.prototype.toUpperCase] (and behind case-insensitive matching)
    are the runtime's, not the program's: the pipeline takes them as a
    [Runtime]. *)
Record Runtime := {
  JSON_parse : ustring -> result val;
  toUpperCase : ustring -> ustring
}.

(** ** Regular expressions

    A backtracking matcher for the pattern language the program's regular
    expressions are written in, after ECMAScript's pattern semantics (no
    [u] flag): a matcher takes the rest of the input, the captures so far
    and a continuation. *)
Module RegExp.

Inductive class_atom :=
| ClassChar (c : N)
| ClassRange (lo hi : N)
| ClassSpace                    (* \s *)
| ClassNotSpace                 (* \S *)
| ClassDigit.                   (* \d *)

Inductive regex :=
| Empty
| Char (c : N)
| Dot
| Class (invert : bool) (atoms : list class_atom)
| Seq (r1 r2 : regex)
| Group (n : nat) (r : regex)                       (* capturing group number n *)
| Quant (min : nat) (max : option nat) (greedy : bool) (r : regex).

Record flags := {
  ignoreCase : bool;
  dotAll : bool
}.

Definition captures := list (nat * ustring).

Fixpoint capture (c : captures) (n : nat) : option ustring :=
  match c with
  | [] => None
  | (m, s) :: c' => if Nat.eqb m n then Some s else capture c' n
  end.

Section Matcher.
Variable rt : Runtime.
Variable fl : flags.

(** Canonicalize: under [i], the upper-case form of the code unit when
    that is one code unit, except that a non-ASCII unit never folds to
    an ASCII one. *)
Definition canonicalize (ch : N) : N :=
  if ignoreCase fl then
    match toUpperCase rt [ch] with
    | [cu] => if ((128 <=? ch) && (cu <? 128))%N then ch else cu
    | _ => ch
    end
  else ch.

Definition line_terminator (c : N) : bool :=
  ((c =? 10) || (c =? 13) || (c =? 8232) || (c =? 8233))%N.

Definition atom_mem (a : class_atom) (c : N) : bool :=
  match a with
  | ClassChar x => (x =? c)%N
  | ClassRange lo hi => ((lo <=? c) && (c <=? hi))%N
  | ClassSpace => is_space c
  | ClassNotSpace => negb (is_space c)
  | ClassDigit => ((48 <=? c) && (c <=? 57))%N
  end.

Definition code_units (lo hi : N) : list N :=
  map N.of_nat (seq (N.to_nat lo) (S (N.to_nat hi) - N.to_nat lo)).

Definition atom_elems (a : class_atom) : list N :=
  match a with
  | ClassChar x => [x]
  | ClassRange lo hi => code_units lo hi
  | ClassSpace =>
      [9; 10; 11; 12; 13; 32; 160; 5760]%N ++ code_units 8192 8202
      ++ [8232; 8233; 8239; 8287; 12288; 65279]%N
  | ClassNotSpace => filter (fun c => negb (is_space c)) (code_units 0 65535)
  | ClassDigit => code_units 48 57
  end.

(** CharacterSetMatcher: some member of the set has the canonical form
    of the input unit. A unit that is itself a member is one such. *)
Definition class_has (atoms : list class_atom) (ch : N) : bool :=
  if existsb (fun a => atom_mem a ch) atoms then true
  else if ignoreCase fl then
    existsb (fun a =>
      existsb (fun x => (canonicalize x =? canonicalize ch)%N)
              (atom_elems a)) atoms
  else false.

Definition cont (A : Type) := ustring -> captures -> option A.
Definition matcher (A : Type) := ustring -> captures -> cont A -> option A.

(** RepeatMatcher. An iteration that consumes nothing once the minimum
    is met is rejected, so [min + length x + 1] steps are never used
    up. No group of the program's patterns sits inside a quantified
    atom that could leave it undefined on a later iteration, so there
    is no capture to reset between iterations. *)
Fixpoint repeat {A} (m : matcher A) (fuel : nat) (min : nat) (max : option nat)
    (greedy : bool) (x : ustring) (c : captures) (k : cont A) : option A :=
  match fuel with
  | O => None
  | S fuel' =>
      match max with
      | Some O => k x c
      | _ =>
          let d : cont A := fun y c' =>
            if Nat.eqb min 0 && Nat.eqb (length y) (length x) then None
            else repeat m fuel' (pred min) (option_map pred max) greedy y c' k in
          if negb (Nat.eqb min 0) then m x c d
          else if greedy then
            match m x c d with
            | Some z => Some z
            | None => k x c
            end
          else
            match k x c with
            | Some z => Some z
            | None => m x c d
            end
      end
  end.

Definition one_unit {A} (test : N -> bool) : matcher A :=
  fun x c k =>
    match x with
    | ch :: x' => if test ch then k x' c else None
    | [] => None
    end.

Fixpoint rmatch {A} (r : regex) : matcher A :=
  match r with
  | Empty => fun x c k => k x c
  | Char p => one_unit (fun ch => (canonicalize p =? canonicalize ch)%N)
  | Dot => one_unit (fun ch => dotAll fl || negb (line_terminator ch))
  | Class invert atoms => one_unit (fun ch => xorb invert (class_has atoms ch))
  | Seq r1 r2 => fun x c k => rmatch r1 x c (fun y c' => rmatch r2 y c' k)
  | Group n r1 => fun x c k =>
      rmatch r1 x c (fun y c' => k y ((n, firstn (length x - length y) x) :: c'))
  | Quant min max greedy r1 => fun x c k =>
      repeat (rmatch r1) (min + length x + 1) min max greedy x c k
  end.

(** A match: where it starts, the matched text [m[0]], the groups, and
    the input after the match. *)
Record rmatch_result := {
  m_index : nat;
  m_text : ustring;
  m_groups : captures;
  m_rest : ustring
}.

Definition match_here (r : regex) (x : ustring) : option (ustring * captures) :=
  rmatch r x [] (fun y c => Some (y, c)).

(** [r.exec(x)] for a pattern whose [lastIndex] is 0: the leftmost
    position with a match. *)
Fixpoint search (r : regex) (x : ustring) (pos : nat) : option rmatch_result :=
  match match_here r x with
  | Some (y, c) =>
      Some {| m_index := pos; m_text := firstn (length x - length y) x;
              m_groups := c; m_rest := y |}
  | None =>
      match x with
      | [] => None
      | _ :: x' => search r x' (S pos)
      end
  end.

Definition exec (r : regex) (x : ustring) : option rmatch_result :=
  search r x 0.

(** After a match the next search starts where the match ended, one
    unit further after an empty match. *)
Definition resume (m : rmatch_result) : option ustring :=
  match m_text m, m_rest m with
  | [], [] => None
  | [], _ :: y => Some y
  | _, y => Some y
  end.

(** [x.matchAll(r)] for a global pattern. *)
Fixpoint matchAll_fuel (fuel : nat) (r : regex) (x : ustring) : list rmatch_result :=
  match fuel with
  | O => []
  | S fuel' =>
      match exec r x with
      | None => []
      | Some m =>
          m :: match resume m with
               | Some y => matchAll_fuel fuel' r y
               | None => []
               end
      end
  end.

Definition matchAll (r : regex) (x : ustring) : list rmatch_result :=
  matchAll_fuel (S (length x)) r x.

(** [x.replace(r, by)] for a global pattern and a replacement text
    without [$]. *)
Fixpoint replace_fuel (fuel : nat) (r : regex) (x : ustring) (by_ : ustring) : ustring :=
  match fuel with
  | O => x
  | S fuel' =>
      match exec r x with
      | None => x
      | Some m =>
          firstn (m_index m) x ++ by_ ++
          match m_text m, m_rest m with
          | [], [] => []
          | [], ch :: y => ch :: replace_fuel fuel' r y by_
          | _, y => replace_fuel fuel' r y by_
          end
      end
  end.

Definition replace (r : regex) (x : ustring) (by_ : ustring) : ustring :=
  replace_fuel (S (length x)) r x by_.
End Matcher.

(** [m[n]]: the text of group [n], [undefined] for a group that took no
    part in the match. *)
Definition group (m : rmatch_result) (n : nat) : val :=
  match capture (m_groups m) n with
  | Some s => VStr s
  | None => VUndef
  end.

(** *** Pattern syntax *)
Definition lit (s : ustring) : regex := fold_right (fun c r => Seq (Char c) r) Empty s.
Definition seqs (rs : list regex) : regex := fold_right Seq Empty rs.
Definition star (r : regex) : regex := Quant 0 None true r.           (* r* *)
Definition plus (r : regex) : regex := Quant 1 None true r.           (* r+ *)
Definition opt (r : regex) : regex := Quant 0 (Some 1) true r.        (* r? *)
Definition lazy_star (r : regex) : regex := Quant 0 None false r.     (* r*? *)
Definition lazy_plus (r : regex) : regex := Quant 1 None false r.     (* r+? *)
Definition times (n : nat) (r : regex) : regex := Quant n (Some n) true r.  (* r{n} *)
Definition space : regex := Class false [ClassSpace].                 (* \s *)
Definition digit : regex := Class false [ClassDigit].                 (* \d *)
Definition none_of (s : ustring) : regex := Class true (map ClassChar s).  (* [^...] *)
End RegExp.

(** ** Property access on parsed values *)

Definition nullish (v : val) : bool :=
  match v with
  | VUndef | VNull => true
  | _ => false
  end.

(** [typeof v === 'object'] *)
Definition typeof_object (v : val) : bool :=
  match v with
  | VNull | VArr _ | VObj _ => true
  | _ => false
  end.

(** [v.k] for a name [k] that is no array index and that no built-in
    prototype defines ([medalStandings], [rows], [cells], [text]): an own
    property of an object, [undefined] on anything else, a TypeError on
    [undefined] and [null]. *)
Definition get (v : val) (k : ustring) : result val :=
  match v with
  | VUndef | VNull => Err TypeError
  | VObj props =>
      OK match own_property props k with
         | Some x => x
         | None => VUndef
         end
  | _ => OK VUndef
  end.

(** [v[0]]: the first element of an array, the first code unit of a
    string, the own property ["0"] of an object. *)
Definition get0 (v : val) : result val :=
  match v with
  | VUndef | VNull => Err TypeError
  | VArr elems => OK (nth 0 elems VUndef)
  | VStr (c :: _) => OK (VStr [c])
  | VObj props =>
      OK match own_property props (u "0") with
         | Some x => x
         | None => VUndef
         end
  | _ => OK VUndef
  end.

(** [v?.k] and [v?.[0]] *)
Definition opt_chain (v : val) (access : val -> result val) : result val :=
  if nullish v then OK VUndef else access v.

(** [v || []] *)
Definition or_empty_array (v : val) : val :=
  if truthy v then v else VArr [].

(** The receiver of [rows.map(...)]: only an array has a callable [map]. *)
Definition array_elements (v : val) : result (list val) :=
  match v with
  | VArr elems => OK elems
  | _ => Err TypeError
  end.

(** The code points of a string, each as a string: a high surrogate
    followed by a low surrogate is one code point. *)
Fixpoint code_points (s : ustring) : list val :=
  match s with
  | [] => []
  | c :: s' =>
      match s' with
      | d :: s'' =>
          if ((55296 <=? c) && (c <=? 56319) && (56320 <=? d) && (d <=? 57343))%N
          then VStr [c; d] :: code_points s''
          else VStr [c] :: code_points s'
      | [] => [VStr [c]]
      end
  end.

(** The values an iterable yields, for array destructuring: the elements
    of an array, the code points of a string; nothing else that reaches a
    destructuring here is iterable. *)
Definition iterate (v : val) : result (list val) :=
  match v with
  | VArr elems => OK elems
  | VStr s => OK (code_points s)
  | _ => Err TypeError
  end.

(** [name.slice(0, 3).toUpperCase()]: on a string, its first three code
    units in upper case; an array has [slice] but its result has no
    [toUpperCase]; nothing else has a callable [slice]. *)
Definition slice3_upper (rt : Runtime) (name : val) : result val :=
  match name with
  | VStr s => OK (VStr (toUpperCase rt (firstn 3 s)))
  | _ => Err TypeError
  end.

(** A string method called on [m[n]]: a TypeError on [undefined]. *)
Definition as_string (v : val) : result ustring :=
  match v with
  | VStr s => OK s
  | _ => Err TypeError
  end.

(** ** The patterns of the source

    In the comments the quotation mark of a pattern is written [\x22] and
    a starred white space before a closing parenthesis [\s{0,}]. *)
Module Patterns.
Import RegExp.

Definition quote : ustring := [34%N].

(** The class [[A-Za-zÀ-ÖØ-öø-ÿ .()'’-]] of team names. *)
Definition name_class : regex :=
  Class false
    [ClassRange 65 90; ClassRange 97 122; ClassRange 192 214;
     ClassRange 216 246; ClassRange 248 255; ClassChar 32; ClassChar 46;
     ClassChar 40; ClassChar 41; ClassChar 39; ClassChar 8217; ClassChar 45].

Definition upper3 : regex := times 3 (Class false [ClassRange 65 90]).   (* [A-Z]{3} *)
Definition tag_rest : regex := star (none_of (u ">")).                   (* [^>]* *)

(** [/\x22medalStandings\x22:(\[.*?\]),\x22medalLeaders\x22/s] *)
Definition jsonMatch_flags : flags := {| ignoreCase := false; dotAll := true |}.
Definition jsonMatch_rx : regex :=
  seqs [lit (quote ++ u "medalStandings" ++ quote ++ u ":");
        Group 1 (seqs [lit (u "["); lazy_star Dot; lit (u "]")]);
        lit (u "," ++ quote ++ u "medalLeaders" ++ quote)].

(** [/Image:\s*[A-Za-z ]+\s*([A-Z]{3})\s+([A-Za-zÀ-ÖØ-öø-ÿ .()'’-]+?)\s*\|\s*(\d+)\s*\|\s*(\d+)\s*\|\s*(\d+)\s*\|\s*(\d+)/g] *)
Definition rx_flags : flags := {| ignoreCase := false; dotAll := false |}.
Definition bar_count (n : nat) : regex :=                 (* \s*\|\s*(\d+) *)
  seqs [star space; lit (u "|"); star space; Group n (plus digit)].
Definition rx : regex :=
  seqs [lit (u "Image:"); star space;
        plus (Class false [ClassRange 65 90; ClassRange 97 122; ClassChar 32]);
        star space; Group 1 upper3; plus space;
        Group 2 (lazy_plus name_class);
        bar_count 3; bar_count 4; bar_count 5; bar_count 6].

(** [/<tr[^>]*>\s*<td[^>]*data-text=\x22([A-Z]{3})\x22[^>]*>.*?<\/td>.*?<td[^>]*>\s*([A-Za-zÀ-ÖØ-öø-ÿ .()'’-]+?)\s*<\/td>.*?<td[^>]*>\s*(\d+)\s*<\/td>.*?<td[^>]*>\s*(\d+)\s*<\/td>.*?<td[^>]*>\s*(\d+)\s*<\/td>/gsi] *)
Definition rowRx_flags : flags := {| ignoreCase := true; dotAll := true |}.
Definition td_cell (body : regex) : regex :=          (* .*?<td[^>]*>\s*body\s*<\/td> *)
  seqs [lazy_star Dot; lit (u "<td"); tag_rest; lit (u ">"); star space;
        body; star space; lit (u "</td>")].
Definition rowRx : regex :=
  seqs [lit (u "<tr"); tag_rest; lit (u ">"); star space;
        lit (u "<td"); tag_rest; lit (u "data-text=" ++ quote);
        Group 1 upper3; lit quote; tag_rest; lit (u ">");
        lazy_star Dot; lit (u "</td>");
        td_cell (Group 2 (lazy_plus name_class));
        td_cell (Group 3 (plus digit));
        td_cell (Group 4 (plus digit));
        td_cell (Group 5 (plus digit))].

(** [/<table class=\x22wikitable sortable plainrowheaders[^\x22]*\x22[^>]*>([\s\S]*?)<\/table>/i] *)
Definition tableMatch_flags : flags := {| ignoreCase := true; dotAll := false |}.
Definition tableMatch_rx : regex :=
  seqs [lit (u "<table class=" ++ quote ++ u "wikitable sortable plainrowheaders");
        star (none_of quote); lit quote; tag_rest; lit (u ">");
        Group 1 (lazy_star (Class false [ClassSpace; ClassNotSpace]));
        lit (u "</table>")].

(** [/<tr[^>]*>\s*(?:<th[^>]*>.*?<\/th>\s{0,})?<th scope=\x22row\x22[^>]*>(.*?)<\/th>\s*<td[^>]*>(\d+)<\/td>\s*<td[^>]*>(\d+)<\/td>\s*<td[^>]*>(\d+)<\/td>\s*<td[^>]*>(\d+)<\/td>/gims] *)
Definition wikiRow_flags : flags := {| ignoreCase := true; dotAll := true |}.
Definition count_cell (n : nat) : regex :=            (* \s*<td[^>]*>(\d+)<\/td> *)
  seqs [star space; lit (u "<td"); tag_rest; lit (u ">");
        Group n (plus digit); lit (u "</td>")].
Definition wikiRow_rx : regex :=
  seqs [lit (u "<tr"); tag_rest; lit (u ">"); star space;
        opt (seqs [lit (u "<th"); tag_rest; lit (u ">"); lazy_star Dot;
                   lit (u "</th>"); star space]);
        lit (u "<th scope=" ++ quote ++ u "row" ++ quote); tag_rest; lit (u ">");
        Group 1 (lazy_star Dot); lit (u "</th>");
        count_cell 2; count_cell 3; count_cell 4; count_cell 5].

(** [/<[^>]+>/g] and [/&nbsp;/g] *)
Definition plain_flags : flags := {| ignoreCase := false; dotAll := false |}.
Definition tag_rx : regex := seqs [lit (u "<"); plus (none_of (u ">")); lit (u ">")].
Definition nbsp_rx : regex := lit (u "&nbsp;").
End Patterns.

(** ** Source extractors *)

Section Extractors.
Variable rt : Runtime.

Definition k_medalStandings : ustring := u "medalStandings".
Definition k_rows : ustring := u "rows".
Definition k_cells : ustring := u "cells".
Definition k_text : ustring := u "text".

(** The callback of [rows.map] in [fetchApiJson] and in [parseFromHtml]:
<<
    const [countryCell, gold, silver, bronze, total] = row.cells || [];
    const name = typeof countryCell === 'object' ? countryCell.text : countryCell;
    return withScore({ code: name ? name.slice(0, 3).toUpperCase() : '',
                       name: name || '', gold, silver, bronze, total });
>> *)
Definition rowToTeam (row : val) : result Team :=
  (cells <- get row k_cells ;;
   items <- iterate (or_empty_array cells) ;;
   let countryCell := nth 0 items VUndef in
   let gold := nth 1 items VUndef in
   let silver := nth 2 items VUndef in
   let bronze := nth 3 items VUndef in
   let total := nth 4 items VUndef in
   name <- (if typeof_object countryCell then get countryCell k_text
            else OK countryCell) ;;
   code <- (if truthy name then slice3_upper rt name else OK (VStr [])) ;;
   withScore {| r_code := code;
                r_name := if truthy name then name else VStr [];
                r_gold := gold;
                r_silver := silver;
                r_bronze := bronze;
                r_total := Some total |})%result.

(** [standings?.[0]?.rows || []], then [rows.map(...)]. *)
Definition standingsTeams (standings : val) : result (list Team) :=
  (first <- opt_chain standings get0 ;;
   rows <- opt_chain first (fun v => get v k_rows) ;;
   elems <- array_elements (or_empty_array rows) ;;
   mapM rowToTeam elems)%result.

(** [data?.medalStandings?.[0]?.rows || []] and the map over it: the
    records [fetchApiJson] extracts from the response. *)
Definition apiRecords (data : val) : result (list Team) :=
  (standings <- opt_chain data (fun v => get v k_medalStandings) ;;
   standingsTeams standings)%result.

(** The part of [fetchApiJson] after the response has arrived: the
    extraction, the empty check and the sort. *)
Definition apiTeams (data : val) : result (list Team) :=
  (teams <- apiRecords data ;;
   match teams with
   | [] => Err (Error (u "API returned no medal entries"))
   | _ => OK (sortTeams teams)
   end)%result.

Import RegExp Patterns.

(** [JSON.parse(v)]: the argument is read as a string; the text
    [undefined] is no JSON. *)
Definition JSON_parse_val (v : val) : result val :=
  match v with
  | VStr s => JSON_parse rt s
  | _ => Err SyntaxError
  end.

(** The [try] block of [parseFromHtml]: [Some teams] when it returns,
    [None] when control leaves the [if (jsonMatch)] statement, also
    through the [catch]. *)
Definition embeddedTeams (html : ustring) : result (option (list Team)) :=
  match exec rt jsonMatch_flags jsonMatch_rx html with
  | Some jsonMatch =>
      try_catch
        (standings <- JSON_parse_val (group jsonMatch 1) ;;
         teams <- standingsTeams standings ;;
         OK match teams with
            | [] => None
            | _ => Some (sortTeams teams)
            end)%result
        (fun err => OK None)
  | None => OK None
  end.

(** The body of the loop over [html.matchAll(rx)]. *)
Definition inlineTeam (m : rmatch_result) : result Team :=
  (name <- as_string (group m 2) ;;
   withScore {| r_code := group m 1;
                r_name := VStr (trim name);
                r_gold := group m 3;
                r_silver := group m 4;
                r_bronze := group m 5;
                r_total := Some (group m 6) |})%result.

(** The body of the loop over [html.matchAll(rowRx)]: no [total]. *)
Definition tableRowTeam (m : rmatch_result) : result Team :=
  (name <- as_string (group m 2) ;;
   withScore {| r_code := group m 1;
                r_name := VStr (trim name);
                r_gold := group m 3;
                r_silver := group m 4;
                r_bronze := group m 5;
                r_total := None |})%result.

Definition parseFromHtml (html : ustring) : result (list Team) :=
  (embedded <- embeddedTeams html ;;
   match embedded with
   | Some teams => OK teams
   | None =>
       teams <- mapM inlineTeam (matchAll rt rx_flags rx html) ;;
       teams <- match teams with
                | [] => mapM tableRowTeam (matchAll rt rowRx_flags rowRx html)
                | _ => OK teams
                end ;;
       OK (sortTeams teams)
   end)%result.

(** The body of the loop of [parseWikipedia]. *)
Definition wikiTeam (m : rmatch_result) : result Team :=
  (cell <- as_string (group m 1) ;;
   let nameText :=
     trim (replace rt plain_flags nbsp_rx
             (replace rt plain_flags tag_rx cell []) (u " ")) in
   withScore {| r_code := VStr (toUpperCase rt (firstn 3 nameText));
                r_name := VStr nameText;
                r_gold := group m 2;
                r_silver := group m 3;
                r_bronze := group m 4;
                r_total := Some (group m 5) |})%result.

Definition parseWikipedia (html : ustring) : result (list Team) :=
  match exec rt tableMatch_flags tableMatch_rx html with
  | None => OK []
  | Some tableMatch =>
      (tbody <- as_string (group tableMatch 1) ;;
       teams <- mapM wikiTeam (matchAll rt wikiRow_flags wikiRow_rx tbody) ;;
       OK (sortTeams teams))%result
  end.
End Extractors.

(** ** The outside world *)

Definition headers := list (ustring * ustring).

(** What [fetch] resolves to: the [ok] flag, the status, and what reading
    the body as JSON or as text settles to. *)
Record Response := {
  ok : bool;
  status : N;
  json : result val;
  text : result ustring
}.

(** A call to the outside: [fetch(url, { headers })] or
    [execFileAsync('curl', args)]. *)
Inductive call :=
| Fetch (url : ustring) (hs : headers)
| Curl (args : list ustring).

Definition trace := list call.

(** The answers of the outside world, which may depend on the calls made
    before: what [fetch] settles to and what running [curl] settles to (its
    standard output). *)
Record World := {
  fetch_answer : trace -> ustring -> headers -> result Response;
  curl_answer : trace -> list ustring -> result ustring
}.

(** An asynchronous computation run to completion: it extends the trace of
    calls and settles to a value or to a rejection. *)
Definition IO (A : Type) := trace -> result A * trace.

Definition ret {A} (a : A) : IO A := fun tr => (OK a, tr).
Definition throw {A} (e : exn) : IO A := fun tr => (Err e, tr).
Definition lift {A} (r : result A) : IO A := fun tr => (r, tr).

Definition bindIO {A B} (m : IO A) (f : A -> IO B) : IO B :=
  fun tr =>
    match m tr with
    | (OK a, tr') => f a tr'
    | (Err e, tr') => (Err e, tr')
    end.

Definition try_catchIO {A} (body : IO A) (handler : exn -> IO A) : IO A :=
  fun tr =>
    match body tr with
    | (OK a, tr') => (OK a, tr')
    | (Err e, tr') => handler e tr'
    end.

Declare Scope io_scope.
Delimit Scope io_scope with io.
Notation "x <- c ;; k" := (bindIO c (fun x => k))
  (at level 61, c at next level, right associativity) : io_scope.

Fixpoint header (hs : headers) (k : ustring) : option ustring :=
  match hs with
  | [] => None
  | (k', v) :: hs' => if ueqb k' k then Some v else header hs' k
  end.

(** The decimal text of a status code, as a template literal prints it. *)
Definition decimal (n : N) : ustring :=
  u (DecimalString.NilZero.string_of_uint (N.to_uint n)).

(** ** Configuration: the constants read from the environment *)

Definition env_or (env : ustring -> option ustring) (k : string) (default : ustring) : ustring :=
  match env (u k) with
  | Some (c :: s) => c :: s
  | _ => default
  end.

Section Pipeline.
Variable rt : Runtime.
Variable W : World.
Variable env : ustring -> option ustring.      (* process.env *)

Definition API_URL : ustring :=
  env_or env "API_URL" (u "https://site.api.espn.com/apis/v2/sports/olympics/winter/2026/medals").
Definition PAGE_URL : ustring :=
  env_or env "SOURCE_URL" (u "https://www.espn.com/olympics/winter/2026/medals").
Definition WIKI_URL : ustring :=
  env_or env "WIKI_URL" (u "https://en.wikipedia.org/wiki/2026_Winter_Olympics_medal_table").
Definition PAMEDIA_KEY : option ustring := env (u "PAMEDIA_API_KEY").

Definition k_User_Agent : ustring := u "User-Agent".
Definition medalTable_agent : ustring :=
  u "Mozilla/5.0 (MedalTable/1.0; +https://example.com/medal-table)".

(** *** Transport layer *)

Definition fetch (url : ustring) (hs : headers) : IO Response :=
  fun tr => (fetch_answer W tr url hs, tr ++ [Fetch url hs]).

Definition execFile_curl (args : list ustring) : IO ustring :=
  fun tr => (curl_answer W tr args, tr ++ [Curl args]).

Definition http_error (res : Response) : exn :=
  Error (u "HTTP " ++ decimal (status res)).

(** [opts.headers?.['User-Agent']] when truthy *)
Definition user_agent (hs : headers) : option ustring :=
  match header hs k_User_Agent with
  | Some (c :: s) => Some (c :: s)
  | _ => None
  end.

(** The arguments [httpGetJson] runs [curl] with:
    [-sL -H "User-Agent: ${opts.headers?.['User-Agent'] || 'Mozilla/5.0'}" url]. *)
Definition curl_json_args (url : ustring) (hs : headers) : list ustring :=
  [u "-sL"; u "-H";
   u "User-Agent: " ++ match user_agent hs with
                       | Some agent => agent
                       | None => u "Mozilla/5.0"
                       end;
   url].

Definition httpGetJson (url : ustring) (hs : headers) : IO val :=
  try_catchIO
    (res <- fetch url hs ;;
     if negb (ok res) then throw (http_error res)
     else lift (json res))%io
    (fun err =>
       try_catchIO
         (stdout <- execFile_curl (curl_json_args url hs) ;;
          lift (JSON_parse rt stdout))%io
         (fun curlErr => throw err)).

(** The arguments [httpGetText] runs [curl] with: [-sL url], behind a
    [-H] pair when the options carry a User-Agent. *)
Definition curl_text_args (url : ustring) (hs : headers) : list ustring :=
  let args := [u "-sL"; url] in
  match user_agent hs with
  | Some agent => [u "-H"; u "User-Agent: " ++ agent] ++ args
  | None => args
  end.

Definition httpGetText (url : ustring) (hs : headers) : IO ustring :=
  try_catchIO
    (res <- fetch url hs ;;
     if negb (ok res) then throw (http_error res)
     else lift (text res))%io
    (fun err =>
       try_catchIO
         (stdout <- execFile_curl (curl_text_args url hs) ;;
          ret stdout)%io
         (fun curlErr => throw err)).

(** *** Structured-API extractor *)

Definition api_headers : headers :=
  [(k_User_Agent, medalTable_agent);
   (u "accept", u "application/json, text/plain, */*")]
  ++ match PAMEDIA_KEY with
     | Some (c :: s) => [(u "apikey", c :: s)]
     | _ => []
     end.

Definition fetchApiJson : IO (list Team) :=
  (res <- httpGetJson API_URL api_headers ;;
   lift (apiTeams rt res))%io.

(** *** Fallback orchestrator *)

Definition page_headers : headers := [(k_User_Agent, medalTable_agent)].

(** The [try] statement at the head of [fetchMedals] either returns the
    teams of the API ([Some]) or falls through to the page scrape
    ([None]). *)
Definition fetchMedals : IO (list Team) :=
  (api <- try_catchIO
            (teams <- fetchApiJson ;; ret (Some teams))%io
            (fun apiErr => ret None) ;;
   match api with
   | Some teams => ret teams
   | None =>
       html <- httpGetText PAGE_URL page_headers ;;
       teams <- lift (parseFromHtml rt html) ;;
       teams <- match teams with
                | [] =>
                    wikiHtml <- httpGetText WIKI_URL page_headers ;;
                    lift (parseWikipedia rt wikiHtml)
                | _ => ret teams
                end ;;
       match teams with
       | [] => throw (Error (u "Could not parse medal table from source HTML"))
       | _ => ret teams
       end
   end)%io.
End Pipeline.


(** * Statements: vocabulary and example inputs *)

(** ** A runtime for the examples

    Upper-casing of the Basic Latin letters, as Unicode has it on them. No
    example reaches [JSON.parse]. *)
Definition latin_upper (c : N) : N :=
  if ((97 <=? c) && (c <=? 122))%N then (c - 32)%N else c.

Definition basic_runtime : Runtime :=
  {| JSON_parse := fun _ => Err SyntaxError;
     toUpperCase := map latin_upper |}.

(** ** The Norway scenario *)

(** The API row [{ cells: ["Norway", "12", "7", "7"] }]. *)
Definition norway_row : val :=
  VObj [(k_cells, VArr [VStr (u "Norway"); VStr (u "12"); VStr (u "7"); VStr (u "7")])].

(** The record with no [total]. *)
Definition norway_entry : RawRecord :=
  {| r_code := VStr (u "NOR");
     r_name := VStr (u "Norway");
     r_gold := VStr (u "12");
     r_silver := VStr (u "7");
     r_bronze := VStr (u "7");
     r_total := None |}.

Definition norway_team (sc : float) : Team :=
  {| code := VStr (u "NOR");
     name := VStr (u "Norway");
     gold := 12;
     silver := 7;
     bronze := 7;
     total := Some 26%float;
     score := sc |}.

(** A record whose source states a total of [0] beside one gold medal. *)
Definition zero_total_entry : RawRecord :=
  {| r_code := VStr (u "NOR");
     r_name := VStr (u "Norway");
     r_gold := VStr (u "1");
     r_silver := VStr (u "0");
     r_bronze := VStr (u "0");
     r_total := Some (VNum 0) |}.

(** A record whose stated total disagrees with its counts. *)
Definition stated_total_entry : RawRecord :=
  {| r_code := VStr (u "NOR");
     r_name := VStr (u "Norway");
     r_gold := VStr (u "12");
     r_silver := VStr (u "7");
     r_bronze := VStr (u "7");
     r_total := Some (VStr (u "30")) |}.

(** The API answer [{ medalStandings: [{ rows: [] }] }]. *)
Definition empty_rows_response : val :=
  VObj [(k_medalStandings, VArr [VObj [(k_rows, VArr [])]])].

Definition no_api_entries : exn := Error (u "API returned no medal entries").
Definition no_medal_table : exn := Error (u "Could not parse medal table from source HTML").

(** ** Transport failures *)

(** The direct fetch of [url] fails with [e]: [fetch] rejects with [e], or
    it answers a non-success status ([e] is the [HTTP status] error), or
    reading the body settles to the rejection [e]. *)
Definition direct_fails {A} (W : World) (read : Response -> result A)
    (tr : trace) (url : ustring) (hs : headers) (e : exn) : Prop :=
  fetch_answer W tr url hs = Err e \/
  exists res, fetch_answer W tr url hs = OK res /\
    (ok res = false /\ e = http_error res \/ ok res = true /\ read res = Err e).

(** The command-line retrieval of [httpGetJson] fails: [curl] rejects, or
    its output is no JSON. *)
Definition curl_json_fails (rt : Runtime) (W : World) (tr : trace)
    (url : ustring) (hs : headers) : Prop :=
  (exists e', curl_answer W tr (curl_json_args url hs) = Err e') \/
  (exists out e', curl_answer W tr (curl_json_args url hs) = OK out /\
                  JSON_parse rt out = Err e').

(** The command-line retrieval of [httpGetText] fails: [curl] rejects. *)
Definition curl_text_fails (W : World) (tr : trace) (url : ustring) (hs : headers) : Prop :=
  exists e', curl_answer W tr (curl_text_args url hs) = Err e'.

(** A world without network and without [curl]. *)
Definition offline : World :=
  {| fetch_answer := fun _ _ _ => Err (Rejected 1);
     curl_answer := fun _ _ => Err (Rejected 2) |}.

(** No variable of the environment is set. *)
Definition no_env : ustring -> option ustring := fun _ => None.

(** A response with status 200 whose body reads as the given JSON value
    and as the given text. *)
Definition response_200 (body_json : result val) (body_text : result ustring) : Response :=
  {| ok := true; status := 200; json := body_json; text := body_text |}.

(** A world whose API answers [{ medalStandings: [{ rows: [] }] }]. *)
Definition empty_api_world : World :=
  {| fetch_answer := fun _ _ _ => OK (response_200 (OK empty_rows_response) (OK []));
     curl_answer := fun _ _ => Err (Rejected 2) |}.

(** ** Groups that every match defines *)

(** [defines r n]: group [n] lies on every path through [r] (it is not
    under a quantifier that may run zero times). *)
Fixpoint defines (r : RegExp.regex) (n : nat) : bool :=
  match r with
  | RegExp.Seq r1 r2 => defines r1 n || defines r2 n
  | RegExp.Group m r1 => Nat.eqb m n || defines r1 n
  | RegExp.Quant min max _ r1 =>
      negb (Nat.eqb min 0)
      && match max with Some O => false | _ => true end
      && defines r1 n
  | _ => false
  end.

Definition captured (c : RegExp.captures) (n : nat) : Prop :=
  exists s, RegExp.capture c n = Some s.

(** ** The fallback tiers *)

(** The secondary tier of [fetchMedals]: the fetch of the wiki page and
    the extractor run on its text. *)
Definition tier_secondary (rt : Runtime) (W : World) (env : ustring -> option ustring)
  : IO (list Team) :=
  (wikiHtml <- httpGetText W (WIKI_URL env) page_headers ;;
   lift (parseWikipedia rt wikiHtml))%io.

(** A tier fails or yields zero records. *)
Definition tier_fails {A} (r : result (list A)) : Prop :=
  match r with
  | OK (_ :: _) => False
  | _ => True
  end.

(** A wiki page with a one-row medal table. *)
Definition wiki_page : ustring :=
  u "<table class=" ++ Patterns.quote ++ u "wikitable sortable plainrowheaders"
    ++ Patterns.quote ++ u "><tr><th scope=" ++ Patterns.quote ++ u "row"
    ++ Patterns.quote
    ++ u ">Norway</th><td>12</td><td>7</td><td>7</td><td>26</td></tr></table>".

(** A world in which only the wiki page can be reached. *)
Definition wiki_only : World :=
  {| fetch_answer := fun _ url _ =>
       if ueqb url (WIKI_URL no_env)
       then OK (response_200 (Err SyntaxError) (OK wiki_page))
       else Err (Rejected 1);
     curl_answer := fun _ _ => Err (Rejected 2) |}.

(** ** Ranking *)

(** The five keys of the ranking, in priority order; a missing [total]
    counts as [0]. *)
Definition keys (t : Team) : list float :=
  [score t; gold t; silver t; bronze t; nullish0 (total t)].

(** [ka] is lexicographically below [kb] in the order of doubles. *)
Fixpoint lex_ltb (ka kb : list float) : bool :=
  match ka, kb with
  | a :: ka', b :: kb' => (a <? b)%float || ((a =? b)%float && lex_ltb ka' kb')
  | _, _ => false
  end.

(** [a] ranks below [b]. *)
Definition ranks_below (a b : Team) : bool := lex_ltb (keys a) (keys b).

(** A sequence in descending rank order: no element ranks below a later
    one. *)
Definition non_increasing (l : list Team) : Prop :=
  StronglySorted (fun a b => ranks_below a b = false) l.

(** [comparefn(a, b)], as [Array.prototype.sort] reads it, does not ask
    for [a] to come after [b]. *)
Definition in_order (a b : Team) : Prop :=
  (0 <? SortCompare compareTeams a b)%float = false.

(** Every element is in order with every later one. *)
Definition comparator_sorted (l : list Team) : Prop := StronglySorted in_order l.

(** A Team of the data model: its keys are numbers, none of them [NaN]. *)
Definition numeric (t : Team) : Prop :=
  Forall (fun x => isNaN x = false) (keys t).

(** The two teams of the ranking scenario: A with 10, 5, 3 and B with 9,
    9, 9. *)
Definition team_A : Team :=
  {| code := VStr (u "AAA"); name := VStr (u "A");
     gold := 10; silver := 5; bronze := 3; total := Some 18%float; score := 37.5 |}.
Definition team_B : Team :=
  {| code := VStr (u "BBB"); name := VStr (u "B");
     gold := 9; silver := 9; bronze := 9; total := None; score := 49.5 |}.

(** The Team a row without cells becomes: no code, no name, and NaN
    for every number. *)
Definition blank_team : Team :=
  {| code := VStr []; name := VStr [];
     gold := nan; silver := nan; bronze := nan;
     total := Some nan; score := nan |}.

(** ** Doubles as ordered integers *)

(** An integer that orders the valid doubles as the doubles are ordered:
    sign, then exponent, then mantissa. *)
Definition ord (x : spec_float) : Z :=
  match x with
  | S754_zero _ => 0
  | S754_nan => 0
  | S754_infinity s => if s then -36028797018963968000 else 36028797018963968000
  | S754_finite s m e =>
      let v := ((e + 1075) * 9007199254740992 + Zpos m)%Z in
      if s then (- v)%Z else v
  end.

Definition fval (x : float) : Z := ord (Prim2SF x).

Fixpoint lexZ (ka kb : list Z) : bool :=
  match ka, kb with
  | a :: ka', b :: kb' => (a <? b)%Z || ((a =? b)%Z && lexZ ka' kb')
  | _, _ => false
  end.

(** What a matcher promises about captures: on success the continuation
    was entered, with every earlier capture kept and the groups [D]
    defined. *)
Definition keeps {A} (D : nat -> bool) (m : RegExp.matcher A) : Prop :=
  forall x c k z,
    m x c k = Some z ->
    exists y c', k y c' = Some z /\
                 forall n, D n = true \/ captured c n -> captured c' n.

(** A matcher is local when its answer rests on its continuation only at
    inputs no longer than its own. *)
Definition local {A} (m : RegExp.matcher A) : Prop :=
  forall x c k k',
    (forall y c', length y <= length x -> k y c' = k' y c') ->
    m x c k = m x c k'.

(** ** The serving boundary: [GET /api/medals]

    What the route handler hands to the framework's response object: the
    status ([200] unless [res.status] is called), the headers it sets with
    [res.set], and the object it passes to [res.json]. *)

(** [{ gold: 3, silver: 1.5, bronze: 1 }] *)
Record Scoring := {
  sc_gold : float;
  sc_silver : float;
  sc_bronze : float
}.

(** [{ updatedAt, source, scoring, teams }] *)
Record MedalReport := {
  updatedAt : ustring;
  source : ustring;
  scoring : Scoring;
  teams : list Team
}.

Inductive reply_body :=
| ReportBody (report : MedalReport)
| ErrorBody (error : ustring).          (* [{ error }] *)

Record Reply := {
  reply_status : N;
  reply_headers : headers;
  reply_body_of : reply_body
}.

Section Server.
Variable rt : Runtime.
Variable W : World.
Variable env : ustring -> option ustring.
Variable clock : trace -> ustring.      (* [new Date().toISOString()] *)

(** The handler of [app.get('/api/medals', ...)]. *)
Definition medalsHandler : IO Reply :=
  try_catchIO
    (teams <- fetchMedals rt W env ;;
     fun tr =>
       (OK {| reply_status := 200;
              reply_headers := [(u "Cache-Control", u "no-store")];
              reply_body_of :=
                ReportBody {| updatedAt := clock tr;
                              source := PAGE_URL env;
                              scoring := {| sc_gold := 3; sc_silver := 1.5;
                                            sc_bronze := 1 |};
                              teams := teams |} |},
        tr))%io
    (fun err =>
       ret {| reply_status := 500;
              reply_headers := [];
              reply_body_of := ErrorBody (u "Unable to load medal data") |}).
End Server.

(** ** Further vocabulary *)

(** [t] ties with [a]: neither ranks below the other. *)
Definition tied (a t : Team) : bool :=
  negb (ranks_below a t) && negb (ranks_below t a).

(** The calls one transport operation may add to the trace: the fetch,
    and the command-line retrieval behind it. *)
Definition calls_of (url : ustring) (hs : headers) (args : list ustring)
    (calls : list call) : Prop :=
  calls = [Fetch url hs] \/ calls = [Fetch url hs; Curl args].

(** The direct fetch of [url] succeeds with [v]: a success status and a
    body that reads as [v]. *)
Definition direct_gives {A} (W : World) (read : Response -> result A)
    (tr : trace) (url : ustring) (hs : headers) (v : A) : Prop :=
  exists res, fetch_answer W tr url hs = OK res /\ ok res = true /\ read res = OK v.

(** Three teams, the first and the last tied. *)
Definition team_C : Team :=
  {| code := VStr (u "CCC"); name := VStr (u "C");
     gold := 10; silver := 5; bronze := 3; total := Some 18%float; score := 37.5 |}.

(** A world whose API is down at the network and whose [curl] prints a
    text. *)
Definition curl_only (out : ustring) : World :=
  {| fetch_answer := fun _ _ _ => Err (Rejected 1);
     curl_answer := fun _ _ => OK out |}.

(** A runtime that reads one text as one value. *)
Definition reading (text : ustring) (v : val) : Runtime :=
  {| JSON_parse := fun s => if ueqb s text then OK v else Err SyntaxError;
     toUpperCase := map latin_upper |}.

(** A world whose every fetch answers 200 with the given JSON and text. *)
Definition serving (body_json : result val) (body_text : result ustring) : World :=
  {| fetch_answer := fun _ _ _ => OK (response_200 body_json body_text);
     curl_answer := fun _ _ => Err (Rejected 2) |}.

(** The API answer with the one Norway row. *)
Definition norway_response : val :=
  VObj [(k_medalStandings, VArr [VObj [(k_rows, VArr [norway_row])]])].

(** The reply of the handler on every failure. *)
Definition error_reply : Reply :=
  {| reply_status := 500;
     reply_headers := [];
     reply_body_of := ErrorBody (u "Unable to load medal data") |}.

(** The reply of the handler for the given teams at the given time. *)
Definition report_reply (env : ustring -> option ustring) (time : ustring)
    (ts : list Team) : Reply :=
  {| reply_status := 200;
     reply_headers := [(u "Cache-Control", u "no-store")];
     reply_body_of :=
       ReportBody {| updatedAt := time;
                     source := PAGE_URL env;
                     scoring := {| sc_gold := 3; sc_silver := 1.5; sc_bronze := 1 |};
                     teams := ts |} |}.

(** A clock for the examples. *)
Definition noon : trace -> ustring := fun _ => u "2026-02-14T12:00:00.000Z".

(** The [source] and the [teams] a reply reports, if it is a report. *)
Definition reply_source (r : Reply) : option ustring :=
  match reply_body_of r with
  | ReportBody report => Some (source report)
  | ErrorBody _ => None
  end.

Definition reply_teams (r : Reply) : option (list Team) :=
  match reply_body_of r with
  | ReportBody report => Some (teams report)
  | ErrorBody _ => None
  end.

(** ** Counts *)

(** A double that is [+0], positive or [+Infinity]. *)
Definition SF_nonneg (x : spec_float) : bool :=
  match x with
  | S754_zero false | S754_infinity false | S754_finite false _ _ => true
  | _ => false
  end.

Definition nonneg (x : float) : Prop := SF_nonneg (Prim2SF x) = true.

(** A Team whose five keys are numbers at or above zero. *)
Definition counted (t : Team) : Prop :=
  Forall (fun x => (0 <=? x)%float = true) (keys t).

Definition is_digit (c : N) : bool := ((48 <=? c) && (c <=? 57))%N.

(** A non-empty text of decimal digits, what [(\d+)] captures. *)
Definition digit_string (s : ustring) : Prop :=
  s <> [] /\ Forall (fun c => is_digit c = true) s.

(** Upper-casing leaves the Basic Latin block as Unicode has it. *)
Definition ascii_case (rt : Runtime) : Prop :=
  forall c, (c < 128)%N -> toUpperCase rt [c] = [latin_upper c].

(** Every capture of a group of [D] has the shape [P]. *)
Definition shaped_captures (D : nat -> bool) (P : ustring -> Prop)
    (c : RegExp.captures) : Prop :=
  forall n s, D n = true -> In (n, s) c -> P s.

(** Every group of [D] in the pattern is written [(r0)]. *)
Fixpoint shaped_groups (D : nat -> bool) (r0 : RegExp.regex) (r : RegExp.regex) : Prop :=
  match r with
  | RegExp.Seq r1 r2 => shaped_groups D r0 r1 /\ shaped_groups D r0 r2
  | RegExp.Group n r1 => if D n then r1 = r0 else shaped_groups D r0 r1
  | RegExp.Quant _ _ _ r1 => shaped_groups D r0 r1
  | _ => True
  end.

(** A matcher that takes a text of shape [P] off the input and leaves
    the captures as they are. *)
Definition takes (rt : Runtime) (fl : RegExp.flags) (r0 : RegExp.regex)
    (P : ustring -> Prop) : Prop :=
  forall (A : Type) (x : ustring) (c : RegExp.captures) (k : RegExp.cont A) z,
    RegExp.rmatch rt fl r0 x c k = Some z ->
    exists w y, x = w ++ y /\ P w /\ k y c = Some z.

Definition is_upper (c : N) : bool := ((65 <=? c) && (c <=? 90))%N.
Definition is_letter (c : N) : bool :=
  is_upper c || ((97 <=? c) && (c <=? 122))%N.

(** A text of three units that pass a test. *)
Definition three_of (test : N -> bool) (s : ustring) : Prop :=
  length s = 3 /\ Forall (fun c => test c = true) s.

(** The code of a Team is a text of three units that pass the test. *)
Definition coded (test : N -> bool) (t : Team) : Prop :=
  exists s, code t = VStr s /\ three_of test s.

(** The groups [lo] to [hi]. *)
Definition groups_from (lo hi : nat) (n : nat) : bool :=
  Nat.leb lo n && Nat.leb n hi.

(** A page with one row in the inline form, and one with one row of a
    table. *)
Definition inline_page : ustring :=
  u "Image: Norway NOR Norway | 12 | 7 | 7 | 26".

Definition table_page : ustring :=
  u "<tr><td data-text=" ++ Patterns.quote ++ u "NOR" ++ Patterns.quote
    ++ u ">flag</td><td>Norway</td><td>12</td><td>7</td><td>7</td></tr>".

(** The API row [{ cells: ["Italy", "1", "2", "3"] }] and its Team. *)
Definition italy_row : val :=
  VObj [(k_cells, VArr [VStr (u "Italy"); VStr (u "1"); VStr (u "2"); VStr (u "3")])].

Definition italy_team : Team :=
  {| code := VStr (u "ITA"); name := VStr (u "Italy");
     gold := 1; silver := 2; bronze := 3; total := Some 6%float; score := 9 |}.

(** The API answer with the Italy row ahead of the Norway row. *)
Definition two_row_response : val :=
  VObj [(k_medalStandings, VArr [VObj [(k_rows, VArr [italy_row; norway_row])]])].

(** The API answer whose one row is [null]. *)
Definition null_row_response : val :=
  VObj [(k_medalStandings, VArr [VObj [(k_rows, VArr [VNull])]])].

(** A page with a table row whose code is in lower case. *)
Definition lower_table_page : ustring :=
  u "<tr><td data-text=" ++ Patterns.quote ++ u "nor" ++ Patterns.quote
    ++ u ">flag</td><td>Norway</td><td>12</td><td>7</td><td>7</td></tr>".

Definition lower_norway : Team :=
  {| code := VStr (u "nor"); name := VStr (u "Norway");
     gold := 12; silver := 7; bronze := 7; total := Some 26%float; score := 53.5 |}.

(** * Properties *)

(** ** Tactics and small facts *)

(** Two closed doubles are told apart by the primitive comparison. *)
Ltac float_neq :=
  let H := fresh in
  intro H;
  match type of H with
  | _ = ?b => apply (f_equal (fun x => PrimFloat.eqb x b)) in H
  end;
  vm_compute in H; discriminate H.

Lemma bind_OK {A B} (r : result A) (f : A -> result B) (b : B) :
  bind r f = OK b -> exists a, r = OK a /\ f a = OK b.
Proof.
  destruct r as [a|e]; simpl; intros H; [eauto | discriminate].
Qed.

Ltac bind_inv H :=
  let a := fresh "x" in
  let Ha := fresh "E" in
  apply bind_OK in H; destruct H as (a & Ha & H).

(** What [withScore] returns, field by field. *)
Lemma withScore_OK (entry : RawRecord) (t : Team) :
  withScore entry = OK t ->
  exists g s b tt,
    Number (r_gold entry) = OK g /\
    Number (r_silver entry) = OK s /\
    Number (r_bronze entry) = OK b /\
    (if truthy (entry_total entry) then Number (entry_total entry)
     else OK (g + s + b)%float) = OK tt /\
    t = {| code := r_code entry; name := r_name entry;
           gold := g; silver := s; bronze := b;
           total := Some tt;
           score := (g * 3 + s * 1.5 + b * 1)%float |}.
Proof.
  unfold withScore. intros H.
  bind_inv H. bind_inv H. bind_inv H. bind_inv H.
  injection H as <-. eauto 10.
Qed.

(** [withScore] returns as soon as its coercions do. *)
Lemma withScore_returns (entry : RawRecord) (g s b : float) :
  Number (r_gold entry) = OK g ->
  Number (r_silver entry) = OK s ->
  Number (r_bronze entry) = OK b ->
  (truthy (entry_total entry) = true -> exists x, Number (entry_total entry) = OK x) ->
  exists t, withScore entry = OK t.
Proof.
  intros Hg Hs Hb Ht. unfold withScore. rewrite Hg, Hs, Hb. simpl.
  destruct (truthy (entry_total entry)).
  - destruct Ht as [x ->]; [reflexivity|]. simpl. eauto.
  - simpl. eauto.
Qed.

(** A primitive, a string or [undefined] never makes [Number] throw. *)
Lemma Number_primitive (v : val) :
  match v with VArr _ | VObj _ => False | _ => True end ->
  exists x, Number v = OK x.
Proof.
  destruct v as [| |[|]| | | |]; simpl; intros H; try contradiction; eauto.
Qed.

(** ** Record Normalizer *)

(** C2. Every Team [withScore] produces carries the coerced counts
    [Number(entry.gold)], [Number(entry.silver)], [Number(entry.bronze)],
    and its [score] is the double [gold * 3 + silver * 1.5 + bronze * 1]
    computed from them, whatever [score] the record held before. Equality
    is identity of doubles: a [NaN] count gives the [NaN] score. *)
Theorem withScore_score (entry : RawRecord) (t : Team) :
  withScore entry = OK t ->
  Number (r_gold entry) = OK (gold t) /\
  Number (r_silver entry) = OK (silver t) /\
  Number (r_bronze entry) = OK (bronze t) /\
  score t = (gold t * 3 + silver t * 1.5 + bronze t * 1)%float.
Proof.
  intros H. apply withScore_OK in H.
  destruct H as (g & s & b & tt & Hg & Hs & Hb & _ & ->). simpl. auto.
Qed.

Lemma withScore_score_witness :
  Number (r_gold norway_entry) = OK (gold (norway_team 53.5)) /\
  Number (r_silver norway_entry) = OK (silver (norway_team 53.5)) /\
  Number (r_bronze norway_entry) = OK (bronze (norway_team 53.5)) /\
  score (norway_team 53.5) =
    (gold (norway_team 53.5) * 3 + silver (norway_team 53.5) * 1.5
     + bronze (norway_team 53.5) * 1)%float.
Proof.
  apply (withScore_score norway_entry (norway_team 53.5)).
  vm_compute. reflexivity.
Defined.

(** C4, as stated, fails: a record stating the total [0] beside one gold
    medal comes out with the total [1], not with [Number(0)]. *)
Lemma stated_zero_total_is_replaced :
  r_total zero_total_entry = Some (VNum 0) /\
  Number (VNum 0) = OK 0%float /\
  exists t, withScore zero_total_entry = OK t /\
            total t = Some 1%float /\
            total t <> Some 0%float.
Proof.
  split; [reflexivity|]. split; [reflexivity|].
  eexists. split; [vm_compute; reflexivity|]. simpl.
  split; [reflexivity|]. intros H.
  apply (f_equal (fun o => PrimFloat.eqb (nullish0 o) 0)) in H.
  vm_compute in H. discriminate H.
Qed.

(** C4, amended. When the record has a [total] that is truthy, and the
    counts and that total coerce, [withScore] returns a Team whose [total]
    is [Number] of the stated total, whatever the counts add up to. *)
Theorem withScore_total_stated (entry : RawRecord) (v : val) (g s b x : float) :
  r_total entry = Some v ->
  truthy v = true ->
  Number (r_gold entry) = OK g ->
  Number (r_silver entry) = OK s ->
  Number (r_bronze entry) = OK b ->
  Number v = OK x ->
  exists t, withScore entry = OK t /\
            gold t = g /\ silver t = s /\ bronze t = b /\
            total t = Some x.
Proof.
  intros Hv Htr Hg Hs Hb Hx. unfold withScore, entry_total.
  rewrite Hg, Hs, Hb, Hv, Htr. simpl. rewrite Hx. simpl.
  eexists. split; [reflexivity|]. simpl. auto.
Qed.

Lemma withScore_total_stated_witness :
  exists t, withScore stated_total_entry = OK t /\
            gold t = 12%float /\ silver t = 7%float /\ bronze t = 7%float /\
            total t = Some 30%float.
Proof.
  apply (withScore_total_stated stated_total_entry (VStr (u "30")) 12 7 7 30);
    reflexivity.
Defined.

(** C5. When the record has no [total] (reading [entry.total] gives
    [undefined]) and its three counts coerce, [withScore] returns a Team
    whose [total] is the sum [gold + silver + bronze] of the coerced
    counts. *)
Theorem withScore_total_absent (entry : RawRecord) (g s b : float) :
  entry_total entry = VUndef ->
  Number (r_gold entry) = OK g ->
  Number (r_silver entry) = OK s ->
  Number (r_bronze entry) = OK b ->
  exists t, withScore entry = OK t /\
            gold t = g /\ silver t = s /\ bronze t = b /\
            total t = Some (gold t + silver t + bronze t)%float.
Proof.
  intros Hu Hg Hs Hb. unfold withScore. rewrite Hg, Hs, Hb, Hu. simpl.
  eexists. split; [reflexivity|]. simpl. auto.
Qed.

Lemma withScore_total_absent_witness :
  exists t, withScore norway_entry = OK t /\
            gold t = 12%float /\ silver t = 7%float /\ bronze t = 7%float /\
            total t = Some (gold t + silver t + bronze t)%float.
Proof.
  apply (withScore_total_absent norway_entry 12 7 7); reflexivity.
Defined.

(** C10. When the record has a [total] that is the number [0] or the
    empty string, and its counts coerce, [withScore] returns a Team whose
    [total] is the sum of the coerced counts: the stated total is not
    kept, so a stated [0] survives only when the counts add up to [0]. *)
Theorem withScore_total_falsy (entry : RawRecord) (g s b : float) :
  r_total entry = Some (VNum 0) \/ r_total entry = Some (VStr []) ->
  Number (r_gold entry) = OK g ->
  Number (r_silver entry) = OK s ->
  Number (r_bronze entry) = OK b ->
  exists t, withScore entry = OK t /\
            gold t = g /\ silver t = s /\ bronze t = b /\
            total t = Some (gold t + silver t + bronze t)%float.
Proof.
  intros Hv Hg Hs Hb. unfold withScore, entry_total. rewrite Hg, Hs, Hb.
  destruct Hv as [Hv|Hv]; rewrite Hv; simpl;
    (eexists; split; [reflexivity|]; simpl; auto).
Qed.

Lemma withScore_total_falsy_witness :
  exists t, withScore zero_total_entry = OK t /\
            gold t = 1%float /\ silver t = 0%float /\ bronze t = 0%float /\
            total t = Some (gold t + silver t + bronze t)%float.
Proof.
  apply (withScore_total_falsy zero_total_entry 1 0 0);
    [left|..]; reflexivity.
Defined.

(** C6, as stated, fails: the Norway record normalizes to the score
    [53.5], which is [12 * 3 + 7 * 1.5 + 7], and not to the Team with the
    score [58.5]. *)
Lemma norway_score_is_not_58_5 :
  withScore norway_entry = OK (norway_team 53.5) /\
  rowToTeam basic_runtime norway_row = OK (norway_team 53.5) /\
  norway_team 53.5 <> norway_team 58.5.
Proof.
  split; [vm_compute; reflexivity|]. split; [vm_compute; reflexivity|].
  intros H. apply (f_equal score) in H. simpl in H. revert H. float_neq.
Qed.

(** C6, amended. The Norway record, with no [total], normalizes to the
    Team [{code: NOR, name: Norway, gold: 12, silver: 7, bronze: 7,
    total: 26, score: 53.5}]; the [code] is the one the row callback
    derives from the name, given that the runtime upper-cases [Nor] to
    [NOR]. *)
Theorem norway_normalized (rt : Runtime) :
  toUpperCase rt (u "Nor") = u "NOR" ->
  rowToTeam rt norway_row = OK (norway_team 53.5) /\
  withScore norway_entry = OK (norway_team 53.5).
Proof.
  intros Hup. split; [|vm_compute; reflexivity].
  unfold rowToTeam, norway_row. simpl.
  unfold slice3_upper. simpl firstn.
  change [78%N; 111%N; 114%N] with (u "Nor"). rewrite Hup.
  vm_compute. reflexivity.
Qed.

Lemma norway_normalized_witness :
  rowToTeam basic_runtime norway_row = OK (norway_team 53.5) /\
  withScore norway_entry = OK (norway_team 53.5).
Proof.
  apply (norway_normalized basic_runtime). reflexivity.
Defined.

(** ** Ranking Sorter: shape of the result *)

Lemma insert_not_nil {A} (cmp : A -> A -> float) (x : A) (l : list A) :
  insert cmp x l <> [].
Proof.
  destruct l as [|y l]; simpl; [discriminate|].
  destruct (0 <? SortCompare cmp x y)%float; discriminate.
Qed.

Lemma Array_sort_nil {A} (cmp : A -> A -> float) (l : list A) :
  Array_sort cmp l = [] -> l = [].
Proof.
  destruct l as [|x l]; [reflexivity|]. simpl. intros H.
  destruct (insert_not_nil cmp x (Array_sort cmp l) H).
Qed.

Lemma insert_Permutation {A} (cmp : A -> A -> float) (x : A) (l : list A) :
  Permutation (x :: l) (insert cmp x l).
Proof.
  induction l as [|y l IH]; simpl; [apply Permutation_refl|].
  destruct (0 <? SortCompare cmp x y)%float.
  - eapply perm_trans; [apply perm_swap|]. apply perm_skip, IH.
  - apply Permutation_refl.
Qed.

Lemma Array_sort_Permutation {A} (cmp : A -> A -> float) (l : list A) :
  Permutation l (Array_sort cmp l).
Proof.
  induction l as [|x l IH]; simpl; [apply perm_nil|].
  eapply perm_trans; [apply perm_skip, IH|]. apply insert_Permutation.
Qed.

(** ** Structured-API extractor *)

Lemma apiTeams_not_empty (rt : Runtime) (data : val) :
  apiTeams rt data <> OK [].
Proof.
  unfold apiTeams. destruct (apiRecords rt data) as [[|t ts]|e]; simpl;
    try discriminate.
  intros H. injection H as H. exact (insert_not_nil _ _ _ H).
Qed.

(** C7. [fetchApiJson] never settles to an empty collection; when the
    response arrives and the records extracted from it are none, it
    rejects with the error [API returned no medal entries], and so it does
    on the response [{ medalStandings: [{ rows: [] }] }]. *)
Theorem fetchApiJson_empty_throws (rt : Runtime) (W : World)
    (env : ustring -> option ustring) (tr : trace) :
  fst (fetchApiJson rt W env tr) <> OK [] /\
  (forall data tr',
      httpGetJson rt W (API_URL env) (api_headers env) tr = (OK data, tr') ->
      apiRecords rt data = OK [] ->
      fetchApiJson rt W env tr = (Err no_api_entries, tr')) /\
  apiRecords rt empty_rows_response = OK [] /\
  apiTeams rt empty_rows_response = Err no_api_entries.
Proof.
  split; [|split; [|split; reflexivity]].
  - unfold fetchApiJson, bindIO, lift.
    destruct (httpGetJson rt W (API_URL env) (api_headers env) tr) as [[data|e] tr'];
      simpl; [apply apiTeams_not_empty | discriminate].
  - intros data tr' Hget Hrec. unfold fetchApiJson, bindIO, lift.
    rewrite Hget. unfold apiTeams. rewrite Hrec. reflexivity.
Qed.

Lemma fetchApiJson_empty_throws_witness :
  fetchApiJson basic_runtime empty_api_world no_env []
  = (Err no_api_entries,
     [Fetch (API_URL no_env) (api_headers no_env)]).
Proof.
  apply (proj1 (proj2 (fetchApiJson_empty_throws basic_runtime empty_api_world no_env []))
           empty_rows_response); reflexivity.
Defined.

(** ** Transport layer *)

Lemma direct_fails_run {A} (W : World) (read : Response -> result A)
    (tr : trace) (url : ustring) (hs : headers) (e : exn) :
  direct_fails W read tr url hs e ->
  bindIO (fetch W url hs)
    (fun res => if negb (ok res) then throw (http_error res) else lift (read res)) tr
  = (Err e, tr ++ [Fetch url hs]).
Proof.
  unfold bindIO, fetch, throw, lift.
  intros [H | (res & H & [[Hok ->] | [Hok Hread]])]; rewrite H; simpl.
  - reflexivity.
  - rewrite Hok. reflexivity.
  - rewrite Hok, Hread. reflexivity.
Qed.

(** C8. In [httpGetJson] and in [httpGetText], when the direct fetch fails
    with [e] and the command-line retrieval fails too, the caller receives
    [e], the failure of the direct fetch. *)
Theorem transport_rethrows_first_failure (rt : Runtime) (W : World)
    (url : ustring) (hs : headers) (tr : trace) (e : exn) :
  (direct_fails W json tr url hs e ->
   curl_json_fails rt W (tr ++ [Fetch url hs]) url hs ->
   fst (httpGetJson rt W url hs tr) = Err e) /\
  (direct_fails W text tr url hs e ->
   curl_text_fails W (tr ++ [Fetch url hs]) url hs ->
   fst (httpGetText W url hs tr) = Err e).
Proof.
  split; intros Hd Hc.
  - unfold httpGetJson, try_catchIO at 1. rewrite (direct_fails_run _ _ _ _ _ _ Hd).
    unfold try_catchIO, bindIO, execFile_curl, lift, throw.
    destruct Hc as [[e' Hc] | (out & e' & Hc & Hp)]; rewrite Hc; simpl;
      [|rewrite Hp]; reflexivity.
  - unfold httpGetText, try_catchIO at 1. rewrite (direct_fails_run _ _ _ _ _ _ Hd).
    unfold try_catchIO, bindIO, execFile_curl, ret, throw.
    destruct Hc as [e' Hc]. rewrite Hc. reflexivity.
Qed.

Lemma transport_rethrows_first_failure_witness :
  fst (httpGetJson basic_runtime offline (u "https://example.com/") [] []) = Err (Rejected 1) /\
  fst (httpGetText offline (u "https://example.com/") [] []) = Err (Rejected 1).
Proof.
  split.
  - apply (proj1 (transport_rethrows_first_failure basic_runtime offline
                    (u "https://example.com/") [] [] (Rejected 1))).
    + left. reflexivity.
    + left. exists (Rejected 2). reflexivity.
  - apply (proj2 (transport_rethrows_first_failure basic_runtime offline
                    (u "https://example.com/") [] [] (Rejected 1))).
    + left. reflexivity.
    + exists (Rejected 2). reflexivity.
Defined.

(** ** Regular expressions: a match defines the groups on its path *)

Section RegExpFacts.
Import RegExp.
Variable rt : Runtime.
Variable fl : flags.

Lemma keeps_one_unit {A} (test : N -> bool) :
  keeps (A := A) (fun _ => false) (one_unit test).
Proof.
  intros x c k z H. unfold one_unit in H.
  destruct x as [|ch x']; [discriminate|].
  destruct (test ch); [|discriminate].
  exists x', c. split; [exact H|]. intros n [Hn|Hn]; [discriminate|exact Hn].
Qed.

Lemma keeps_repeat {A} (D : nat -> bool) (m : matcher A) :
  keeps D m ->
  forall fuel min max greedy,
    keeps (fun n => negb (Nat.eqb min 0)
                    && match max with Some O => false | _ => true end
                    && D n)
          (fun x c k => repeat m fuel min max greedy x c k).
Proof.
  intros Hm. induction fuel as [|fuel IH]; intros min max greedy x c k z H.
  - discriminate.
  - simpl in H.
    assert (Hstop : k x c = Some z ->
              forall b, b = false ->
              exists y c', k y c' = Some z /\
                forall n, b && D n = true \/ captured c n -> captured c' n).
    { intros Hk b ->. exists x, c. split; [exact Hk|].
      intros n [Hn|Hn]; [discriminate|exact Hn]. }
    assert (Hgo : forall b,
              m x c (fun y c' =>
                 if Nat.eqb min 0 && Nat.eqb (length y) (length x) then None
                 else repeat m fuel (pred min) (option_map pred max) greedy y c' k)
              = Some z ->
              exists y c', k y c' = Some z /\
                forall n, b && D n = true \/ captured c n -> captured c' n).
    { intros b Hgo. apply Hm in Hgo. destruct Hgo as (y & c1 & Hd & Hc1).
      destruct (Nat.eqb min 0 && Nat.eqb (length y) (length x)); [discriminate|].
      apply IH in Hd. destruct Hd as (y' & c' & Hk & Hc').
      exists y', c'. split; [exact Hk|].
      intros n Hn. apply Hc'. right. apply Hc1.
      destruct Hn as [Hn|Hn]; [|right; exact Hn].
      left. apply andb_true_iff in Hn. apply Hn. }
    destruct max as [[|max']|].
    + rewrite andb_false_r. apply (Hstop H). reflexivity.
    + destruct (Nat.eqb min 0) eqn:Emin; simpl negb in H; cbv iota in H.
      * destruct greedy.
        -- match type of H with
           | match ?e with _ => _ end = _ => remember e as o eqn:Em in H
           end.
           destruct o as [z'|].
           ++ injection H as ->. symmetry in Em. exact (Hgo false Em).
           ++ apply (Hstop H). reflexivity.
        -- remember (k x c) as o eqn:Ek in H. destruct o as [z'|].
           ++ injection H as ->. symmetry in Ek. apply (Hstop Ek). reflexivity.
           ++ exact (Hgo false H).
      * exact (Hgo true H).
    + destruct (Nat.eqb min 0) eqn:Emin; simpl negb in H; cbv iota in H.
      * destruct greedy.
        -- match type of H with
           | match ?e with _ => _ end = _ => remember e as o eqn:Em in H
           end.
           destruct o as [z'|].
           ++ injection H as ->. symmetry in Em. exact (Hgo false Em).
           ++ apply (Hstop H). reflexivity.
        -- remember (k x c) as o eqn:Ek in H. destruct o as [z'|].
           ++ injection H as ->. symmetry in Ek. apply (Hstop Ek). reflexivity.
           ++ exact (Hgo false H).
      * exact (Hgo true H).
Qed.

Lemma keeps_rmatch {A} (r : regex) :
  keeps (A := A) (defines r) (rmatch rt fl r).
Proof.
  induction r as [|p| |invert atoms|r1 IH1 r2 IH2|g r1 IH1|min max greedy r1 IH1];
    simpl.
  - intros x c k z H. exists x, c. split; [exact H|].
    intros n [Hn|Hn]; [discriminate|exact Hn].
  - apply keeps_one_unit.
  - apply keeps_one_unit.
  - apply keeps_one_unit.
  - intros x c k z H. apply IH1 in H. destruct H as (y1 & c1 & H & Hc1).
    apply IH2 in H. destruct H as (y2 & c2 & H & Hc2).
    exists y2, c2. split; [exact H|].
    intros n Hn. apply Hc2.
    destruct (defines r2 n) eqn:E2; [left; reflexivity|].
    right. apply Hc1. rewrite orb_false_r in Hn. exact Hn.
  - intros x c k z H. apply IH1 in H. destruct H as (y & c1 & H & Hc1).
    eexists y, _. split; [exact H|].
    intros n Hn. unfold captured. simpl.
    destruct (Nat.eqb g n) eqn:Eg; [eauto|].
    apply Hc1. exact Hn.
  - intros x c k z H.
    exact (keeps_repeat (defines r1) (rmatch rt fl r1) IH1 _ min max greedy x c k z H).
Qed.

Lemma search_defines (r : regex) (n : nat) :
  defines r n = true ->
  forall x pos m, search rt fl r x pos = Some m -> exists s, group m n = VStr s.
Proof.
  intros Hn. induction x as [|ch x IH]; intros pos m H; simpl in H.
  - destruct (match_here rt fl r []) as [[y c]|] eqn:E; [|discriminate].
    injection H as <-. unfold match_here in E. apply keeps_rmatch in E.
    destruct E as (y' & c' & E & Hc). injection E as -> ->.
    destruct (Hc n (or_introl Hn)) as [s Hs].
    exists s. unfold group. simpl. rewrite Hs. reflexivity.
  - destruct (match_here rt fl r (ch :: x)) as [[y c]|] eqn:E.
    + injection H as <-. unfold match_here in E. apply keeps_rmatch in E.
      destruct E as (y' & c' & E & Hc). injection E as -> ->.
      destruct (Hc n (or_introl Hn)) as [s Hs].
      exists s. unfold group. simpl. rewrite Hs. reflexivity.
    + eapply IH, H.
Qed.

Lemma matchAll_defines (r : regex) (n : nat) :
  defines r n = true ->
  forall x m, In m (matchAll rt fl r x) -> exists s, group m n = VStr s.
Proof.
  intros Hn x. unfold matchAll. generalize (S (length x)) as fuel.
  intros fuel. revert x. induction fuel as [|fuel IH]; intros x m H; simpl in H.
  - contradiction.
  - destruct (exec rt fl r x) as [m0|] eqn:E; [|contradiction].
    destruct H as [<-|H].
    + eapply search_defines; [exact Hn | exact E].
    + destruct (resume m0); [eapply IH, H | contradiction].
Qed.
End RegExpFacts.

(** ** The page extractors never throw *)

Lemma mapM_total {A B} (f : A -> result B) (l : list A) :
  (forall x, In x l -> exists y, f x = OK y) ->
  exists ys, mapM f l = OK ys.
Proof.
  induction l as [|x l IH]; intros H; simpl; [eauto|].
  destruct (H x (or_introl eq_refl)) as [y ->].
  destruct IH as [ys ->]; [intros z Hz; apply H; right; exact Hz|]. eauto.
Qed.

Lemma Number_group (m : RegExp.rmatch_result) (n : nat) :
  exists x, Number (RegExp.group m n) = OK x.
Proof.
  apply Number_primitive. unfold RegExp.group.
  destruct (RegExp.capture (RegExp.m_groups m) n); exact I.
Qed.

(** A record whose counts and total are groups of a match normalizes. *)
Lemma withScore_groups (m : RegExp.rmatch_result) (c nm : val) (g s b : nat)
    (t : option nat) :
  exists team,
    withScore {| r_code := c; r_name := nm;
                 r_gold := RegExp.group m g;
                 r_silver := RegExp.group m s;
                 r_bronze := RegExp.group m b;
                 r_total := option_map (RegExp.group m) t |} = OK team.
Proof.
  destruct (Number_group m g) as [xg Hg], (Number_group m s) as [xs Hs],
           (Number_group m b) as [xb Hb].
  apply (withScore_returns _ xg xs xb); simpl; try assumption.
  intros _. unfold entry_total. simpl.
  destruct t as [n|]; simpl; [apply Number_group | eauto].
Qed.

Section ExtractorFacts.
Import RegExp Patterns.
Variable rt : Runtime.

Lemma embeddedTeams_total (html : ustring) :
  exists o, embeddedTeams rt html = OK o.
Proof.
  unfold embeddedTeams.
  destruct (exec rt jsonMatch_flags jsonMatch_rx html) as [m|]; [|eauto].
  unfold try_catch.
  match goal with
  | |- exists o, match ?body with _ => _ end = _ => destruct body; eauto
  end.
Qed.

Lemma inlineTeam_total (html : ustring) (m : rmatch_result) :
  In m (matchAll rt rx_flags rx html) -> exists t, inlineTeam m = OK t.
Proof.
  intros Hm. unfold inlineTeam.
  destruct (matchAll_defines rt rx_flags rx 2 eq_refl html m Hm) as [s ->]. simpl.
  apply (withScore_groups m _ _ 3 4 5 (Some 6)).
Qed.

Lemma tableRowTeam_total (html : ustring) (m : rmatch_result) :
  In m (matchAll rt rowRx_flags rowRx html) -> exists t, tableRowTeam m = OK t.
Proof.
  intros Hm. unfold tableRowTeam.
  destruct (matchAll_defines rt rowRx_flags rowRx 2 eq_refl html m Hm) as [s ->]. simpl.
  apply (withScore_groups m _ _ 3 4 5 None).
Qed.

Lemma wikiTeam_total (tbody : ustring) (m : rmatch_result) :
  In m (matchAll rt wikiRow_flags wikiRow_rx tbody) -> exists t, wikiTeam rt m = OK t.
Proof.
  intros Hm. unfold wikiTeam.
  destruct (matchAll_defines rt wikiRow_flags wikiRow_rx 1 eq_refl tbody m Hm) as [s ->].
  simpl. apply (withScore_groups m _ _ 2 3 4 (Some 5)).
Qed.

Lemma parseFromHtml_total (html : ustring) :
  exists teams, parseFromHtml rt html = OK teams.
Proof.
  unfold parseFromHtml.
  destruct (embeddedTeams_total html) as [[teams|] ->]; simpl; [eauto|].
  destruct (mapM_total inlineTeam _ (inlineTeam_total html)) as [ts ->]. simpl.
  destruct ts as [|t ts]; simpl; [|eauto].
  destruct (mapM_total tableRowTeam _ (tableRowTeam_total html)) as [ts' ->].
  simpl. eauto.
Qed.

Lemma parseWikipedia_total (html : ustring) :
  exists teams, parseWikipedia rt html = OK teams.
Proof.
  unfold parseWikipedia.
  destruct (exec rt tableMatch_flags tableMatch_rx html) as [m|] eqn:E; [|eauto].
  destruct (search_defines rt tableMatch_flags tableMatch_rx 1 eq_refl html 0 m E)
    as [tbody ->]. simpl.
  destruct (mapM_total (wikiTeam rt) _ (wikiTeam_total tbody)) as [ts ->].
  simpl. eauto.
Qed.
End ExtractorFacts.

(** C9. [parseFromHtml] and [parseWikipedia] return a sequence of teams,
    possibly empty, on every input text and whatever [JSON.parse] does with
    the embedded fragment: no exception leaves them. *)
Theorem page_extractors_never_throw (rt : Runtime) (html : ustring) :
  (exists teams, parseFromHtml rt html = OK teams) /\
  (exists teams, parseWikipedia rt html = OK teams).
Proof.
  split; [apply parseFromHtml_total | apply parseWikipedia_total].
Qed.

(** ** Fallback orchestrator *)

Lemma fetchApiJson_not_empty (rt : Runtime) (W : World)
    (env : ustring -> option ustring) (tr : trace) :
  fst (fetchApiJson rt W env tr) <> OK [].
Proof.
  unfold fetchApiJson, bindIO, lift.
  destruct (httpGetJson rt W (API_URL env) (api_headers env) tr) as [[data|e] tr'];
    simpl; [apply apiTeams_not_empty | discriminate].
Qed.

(** [fetchMedals] as a decision tree over what its steps settle to. *)
Lemma fetchMedals_tree (rt : Runtime) (W : World)
    (env : ustring -> option ustring) (tr : trace) :
  fetchMedals rt W env tr =
  match fetchApiJson rt W env tr with
  | (OK teams, tr1) => (OK teams, tr1)
  | (Err _, tr1) =>
      match httpGetText W (PAGE_URL env) page_headers tr1 with
      | (Err e2, tr2) => (Err e2, tr2)
      | (OK html, tr2) =>
          match parseFromHtml rt html with
          | Err e => (Err e, tr2)
          | OK (t :: ts) => (OK (t :: ts), tr2)
          | OK [] =>
              match httpGetText W (WIKI_URL env) page_headers tr2 with
              | (Err e3, tr3) => (Err e3, tr3)
              | (OK wikiHtml, tr3) =>
                  match parseWikipedia rt wikiHtml with
                  | Err e => (Err e, tr3)
                  | OK (t :: ts) => (OK (t :: ts), tr3)
                  | OK [] => (Err no_medal_table, tr3)
                  end
              end
          end
      end
  end.
Proof.
  unfold fetchMedals, bindIO, try_catchIO, ret, lift, throw.
  destruct (fetchApiJson rt W env tr) as [[teams|e] tr1]; [reflexivity|].
  destruct (httpGetText W (PAGE_URL env) page_headers tr1) as [[html|e2] tr2];
    [|reflexivity].
  destruct (parseFromHtml rt html) as [[|t ts]|e']; [|reflexivity|reflexivity].
  destruct (httpGetText W (WIKI_URL env) page_headers tr2) as [[wikiHtml|e3] tr3];
    [|reflexivity].
  destruct (parseWikipedia rt wikiHtml) as [[|t ts]|e']; reflexivity.
Qed.

(** C1, as stated, fails: with the API and the primary page unreachable
    and the wiki page in place, [fetchMedals] rejects with the transport
    error of the primary page, after the calls for the API and for the
    primary page only; the secondary tier, run from there, yields a team. *)
Lemma primary_page_failure_is_terminal :
  fetchMedals basic_runtime wiki_only no_env []
  = (Err (Rejected 1),
     [Fetch (API_URL no_env) (api_headers no_env);
      Curl (curl_json_args (API_URL no_env) (api_headers no_env));
      Fetch (PAGE_URL no_env) page_headers;
      Curl (curl_text_args (PAGE_URL no_env) page_headers)]) /\
  exists t,
    fst (tier_secondary basic_runtime wiki_only no_env
           (snd (fetchMedals basic_runtime wiki_only no_env []))) = OK [t] /\
    ~ tier_fails (OK [t]).
Proof.
  split; [vm_compute; reflexivity|].
  eexists. split; [vm_compute; reflexivity|]. simpl. auto.
Qed.

(** C1, amended. [fetchMedals] returns the result of [fetchApiJson], which
    is never empty, when that settles to one, with no call beyond those of
    [fetchApiJson]. When [fetchApiJson] rejects it fetches the primary page:
    a transport failure there is rethrown at once; teams found by
    [parseFromHtml] are returned without fetching the secondary page; only
    on zero teams is the secondary page fetched, whose transport failure is
    rethrown, whose teams are returned, and whose zero teams end in the
    error [Could not parse medal table from source HTML]. So [fetchMedals]
    rejects exactly when [fetchApiJson] rejects and either the primary page
    cannot be fetched, or it yields zero teams and the secondary page
    cannot be fetched or yields zero teams. *)
Theorem fetchMedals_fallback (rt : Runtime) (W : World)
    (env : ustring -> option ustring) (tr : trace) :
  let api := fetchApiJson rt W env tr in
  let page := httpGetText W (PAGE_URL env) page_headers (snd api) in
  let wiki := httpGetText W (WIKI_URL env) page_headers (snd page) in
  let run := fetchMedals rt W env tr in
  (forall teams, fst api = OK teams -> teams <> [] /\ run = (OK teams, snd api)) /\
  (forall e, fst api = Err e ->
     (forall e2, fst page = Err e2 -> run = (Err e2, snd page)) /\
     (forall html t ts,
         fst page = OK html -> parseFromHtml rt html = OK (t :: ts) ->
         run = (OK (t :: ts), snd page)) /\
     (forall html,
         fst page = OK html -> parseFromHtml rt html = OK [] ->
         (forall e3, fst wiki = Err e3 -> run = (Err e3, snd wiki)) /\
         (forall wikiHtml t ts,
             fst wiki = OK wikiHtml -> parseWikipedia rt wikiHtml = OK (t :: ts) ->
             run = (OK (t :: ts), snd wiki)) /\
         (forall wikiHtml,
             fst wiki = OK wikiHtml -> parseWikipedia rt wikiHtml = OK [] ->
             run = (Err no_medal_table, snd wiki)))) /\
  ((exists e, fst run = Err e) <->
   (exists e, fst api = Err e) /\
   ((exists e2, fst page = Err e2) \/
    (exists html, fst page = OK html /\ parseFromHtml rt html = OK [] /\
       ((exists e3, fst wiki = Err e3) \/
        (exists wikiHtml, fst wiki = OK wikiHtml /\
                          parseWikipedia rt wikiHtml = OK []))))).
Proof.
  cbv zeta. rewrite (fetchMedals_tree rt W env tr).
  pose proof (fetchApiJson_not_empty rt W env tr) as Hne.
  destruct (fetchApiJson rt W env tr) as [[teams|e] tr1]; simpl in *.
  { split; [|split].
    - intros ? [= <-]. split; [intros ->; apply Hne|]; reflexivity.
    - discriminate.
    - split; [intros [? [=]] | intros [[? [=]] _]]. }
  destruct (httpGetText W (PAGE_URL env) page_headers tr1) as [[html|e2] tr2];
    simpl.
  2:{ split; [discriminate|]. split.
      - intros _ _. split; [intros ? [= <-]; reflexivity|].
        split; [discriminate|]. discriminate.
      - simpl. split; [intros _|intros _]; eauto. }
  destruct (parseFromHtml_total rt html) as [ts0 Hp]. rewrite Hp.
  destruct ts0 as [|t0 ts0].
  2:{ split; [discriminate|]. split.
      - intros _ _. split; [discriminate|]. split.
        + intros ? ? ? [= <-]. rewrite Hp. intros [= <- <-]. reflexivity.
        + intros ? [= <-]. rewrite Hp. discriminate.
      - split; [intros [? [=]]|].
        intros [_ [[? [=]] | (h & [= <-] & H & _)]].
        rewrite Hp in H. discriminate. }
  destruct (httpGetText W (WIKI_URL env) page_headers tr2) as [[wikiHtml|e3] tr3];
    simpl.
  2:{ split; [discriminate|]. split.
      - intros _ _. split; [discriminate|]. split.
        + intros ? ? ? [= <-]. rewrite Hp. discriminate.
        + intros ? [= <-] _. split; [intros ? [= <-]; reflexivity|].
          split; discriminate.
      - split; [|intros _; simpl; eauto]. intros _. split; [eauto|]. right.
        exists html. eauto 6. }
  destruct (parseWikipedia_total rt wikiHtml) as [ts1 Hw]. rewrite Hw.
  destruct ts1 as [|t1 ts1].
  - split; [discriminate|]. split.
    + intros _ _. split; [discriminate|]. split.
      * intros ? ? ? [= <-]. rewrite Hp. discriminate.
      * intros ? [= <-] _. split; [discriminate|]. split.
        -- intros ? ? ? [= <-]. rewrite Hw. discriminate.
        -- intros ? [= <-] _. reflexivity.
    + split; [|intros _; simpl; eauto]. intros _. split; [eauto|]. right.
      exists html. split; [reflexivity|]. split; [exact Hp|]. right.
      exists wikiHtml. auto.
  - split; [discriminate|]. split.
    + intros _ _. split; [discriminate|]. split.
      * intros ? ? ? [= <-]. rewrite Hp. discriminate.
      * intros ? [= <-] _. split; [discriminate|]. split.
        -- intros ? ? ? [= <-]. rewrite Hw. intros [= <- <-]. reflexivity.
        -- intros ? [= <-]. rewrite Hw. discriminate.
    + split; [intros [? [=]]|].
      intros [_ [[? [=]] | (h & [= <-] & _ & [[? [=]] | (w & [= <-] & H)])]].
      rewrite Hw in H. discriminate.
Qed.

Lemma fetchMedals_fallback_witness :
  fetchMedals basic_runtime offline no_env []
  = (Err (Rejected 1),
     snd (httpGetText offline (PAGE_URL no_env) page_headers
            (snd (fetchApiJson basic_runtime offline no_env [])))).
Proof.
  apply (proj1 (proj1 (proj2 (fetchMedals_fallback basic_runtime offline no_env []))
                  (Rejected 1) eq_refl) (Rejected 1)).
  reflexivity.
Defined.

(** ** Regular expressions: the step counts are never used up *)

Section RegExpFuel.
Import RegExp.
Variable rt : Runtime.
Variable fl : flags.

Lemma local_one_unit {A} (test : N -> bool) : local (A := A) (one_unit test).
Proof.
  intros x c k k' H. unfold one_unit. destruct x as [|ch x']; [reflexivity|].
  destruct (test ch); [|reflexivity]. apply H. simpl. lia.
Qed.

Lemma local_repeat {A} (m : matcher A) :
  local m ->
  forall fuel min max greedy,
    local (fun x c k => repeat m fuel min max greedy x c k).
Proof.
  intros Hm. induction fuel as [|fuel IH]; intros min max greedy x c k k' H.
  - reflexivity.
  - simpl.
    assert (Hd : m x c (fun y c' =>
                   if Nat.eqb min 0 && Nat.eqb (length y) (length x) then None
                   else repeat m fuel (pred min) (option_map pred max) greedy y c' k)
               = m x c (fun y c' =>
                   if Nat.eqb min 0 && Nat.eqb (length y) (length x) then None
                   else repeat m fuel (pred min) (option_map pred max) greedy y c' k')).
    { apply Hm. intros y c' Hy.
      destruct (Nat.eqb min 0 && Nat.eqb (length y) (length x)); [reflexivity|].
      apply IH. intros y' c'' Hy'. apply H. lia. }
    rewrite Hd, (H x c (Nat.le_refl _)). reflexivity.
Qed.

Lemma local_rmatch {A} (r : regex) : local (A := A) (rmatch rt fl r).
Proof.
  induction r as [|p| |invert atoms|r1 IH1 r2 IH2|g r1 IH1|min max greedy r1 IH1];
    simpl.
  - intros x c k k' H. apply H. lia.
  - apply local_one_unit.
  - apply local_one_unit.
  - apply local_one_unit.
  - intros x c k k' H. apply IH1. intros y c' Hy. apply IH2.
    intros y' c'' Hy'. apply H. lia.
  - intros x c k k' H. apply IH1. intros y c' Hy. apply H. exact Hy.
  - intros x c k k' H.
    exact (local_repeat (rmatch rt fl r1) IH1 _ min max greedy x c k k' H).
Qed.

(** Beyond [min + length x] steps the answer of [repeat] no longer
    depends on the step count: the count [rmatch] starts from is never
    used up. *)
Lemma repeat_fuel {A} (m : matcher A) :
  local m ->
  forall fuel1 fuel2 min max greedy x c k,
    min + length x < fuel1 -> min + length x < fuel2 ->
    repeat m fuel1 min max greedy x c k = repeat m fuel2 min max greedy x c k.
Proof.
  intros Hm. induction fuel1 as [|fuel1 IH]; intros fuel2 min max greedy x c k H1 H2;
    [lia|].
  destruct fuel2 as [|fuel2]; [lia|]. simpl.
  assert (Hd : m x c (fun y c' =>
                 if Nat.eqb min 0 && Nat.eqb (length y) (length x) then None
                 else repeat m fuel1 (pred min) (option_map pred max) greedy y c' k)
             = m x c (fun y c' =>
                 if Nat.eqb min 0 && Nat.eqb (length y) (length x) then None
                 else repeat m fuel2 (pred min) (option_map pred max) greedy y c' k)).
  { apply Hm. intros y c' Hy.
    destruct (Nat.eqb_spec min 0) as [E0|E0]; simpl.
    - destruct (Nat.eqb_spec (length y) (length x)) as [E|E]; [reflexivity|].
      apply IH; subst min; simpl; lia.
    - apply IH; lia. }
  rewrite Hd. reflexivity.
Qed.

(** A successful match enters its continuation at an input no longer
    than its own. *)
Lemma rmatch_consumes {A} (r : regex) (x : ustring) (c : captures)
    (k : cont A) (z : A) :
  rmatch rt fl r x c k = Some z ->
  exists y c', k y c' = Some z /\ length y <= length x.
Proof.
  intros H.
  rewrite (local_rmatch r x c k
             (fun y c' => if Nat.leb (length y) (length x) then k y c' else None)) in H.
  - apply keeps_rmatch in H. destruct H as (y & c' & H & _).
    destruct (Nat.leb_spec (length y) (length x)); [eauto|discriminate].
  - intros y c' Hy. apply Nat.leb_le in Hy. rewrite Hy. reflexivity.
Qed.

Lemma search_resume (r : regex) (x : ustring) (pos : nat)
    (m : rmatch_result) (y : ustring) :
  search rt fl r x pos = Some m -> resume m = Some y -> length y < length x.
Proof.
  revert pos.
  assert (Hhere : forall x0 y0 c0,
            match_here rt fl r x0 = Some (y0, c0) ->
            resume {| m_index := 0; m_text := firstn (length x0 - length y0) x0;
                      m_groups := c0; m_rest := y0 |} = Some y ->
            length y < length x0).
  { intros x0 y0 c0 E R. unfold match_here in E. apply rmatch_consumes in E.
    destruct E as (y' & c' & [= -> ->] & Hle).
    unfold resume in R. simpl in R.
    destruct (firstn (length x0 - length y0) x0) as [|t ts] eqn:F.
    - destruct y0 as [|ch y0]; [discriminate|]. injection R as R. subst y.
      simpl in Hle. lia.
    - injection R as R. subst y.
      assert (length x0 - length y0 <> 0); [|lia].
      intros Z. rewrite Z in F. discriminate. }
  induction x as [|ch x IH]; intros pos H R; simpl in H.
  - destruct (match_here rt fl r []) as [[y0 c0]|] eqn:E; [|discriminate].
    injection H as <-. exact (Hhere _ _ _ E R).
  - destruct (match_here rt fl r (ch :: x)) as [[y0 c0]|] eqn:E.
    + injection H as <-. exact (Hhere _ _ _ E R).
    + specialize (IH _ H R). simpl. lia.
Qed.

(** [matchAll] never runs out of steps. *)
Lemma matchAll_fuel_enough (r : regex) :
  forall fuel1 fuel2 x,
    length x < fuel1 -> length x < fuel2 ->
    matchAll_fuel rt fl fuel1 r x = matchAll_fuel rt fl fuel2 r x.
Proof.
  induction fuel1 as [|fuel1 IH]; intros fuel2 x H1 H2; [lia|].
  destruct fuel2 as [|fuel2]; [lia|]. simpl.
  destruct (exec rt fl r x) as [m|] eqn:E; [|reflexivity].
  destruct (resume m) as [y|] eqn:R; [|reflexivity].
  pose proof (search_resume r x 0 m y E R).
  f_equal. apply IH; lia.
Qed.

(** [replace] never runs out of steps. *)
Lemma replace_fuel_enough (r : regex) (by_ : ustring) :
  forall fuel1 fuel2 x,
    length x < fuel1 -> length x < fuel2 ->
    replace_fuel rt fl fuel1 r x by_ = replace_fuel rt fl fuel2 r x by_.
Proof.
  induction fuel1 as [|fuel1 IH]; intros fuel2 x H1 H2; [lia|].
  destruct fuel2 as [|fuel2]; [lia|]. simpl.
  destruct (exec rt fl r x) as [m|] eqn:E; [|reflexivity].
  pose proof (search_resume r x 0 m) as R. unfold resume in R.
  destruct (m_text m) as [|t ts]; [destruct (m_rest m) as [|ch y]|].
  - reflexivity.
  - specialize (R y E eq_refl). do 3 f_equal. apply IH; lia.
  - specialize (R (m_rest m) E eq_refl). do 2 f_equal. apply IH; lia.
Qed.
End RegExpFuel.

(** ** Doubles: order and the sign of a difference

    From the specification of the primitive operations ([SpecFloat] and
    the axioms tying the primitives to it). *)

Section FloatFacts.
Local Open Scope Z_scope.

Lemma digits2_size (p : positive) : digits2_pos p = Pos.size p.
Proof. induction p; simpl; congruence. Qed.

Lemma digits2_bounds (p : positive) :
  2 ^ (Zpos (digits2_pos p) - 1) <= Zpos p < 2 ^ Zpos (digits2_pos p).
Proof.
  rewrite digits2_size. split.
  - pose proof (Pos.size_le p) as H.
    apply Pos2Z.pos_le_pos in H. rewrite Pos2Z.inj_pow in H.
    replace (Zpos (Pos.size p)) with (Z.succ (Zpos (Pos.size p) - 1)) in H by lia.
    rewrite Z.pow_succ_r in H by lia.
    change (Zpos p~0) with (2 * Zpos p) in H. lia.
  - pose proof (Pos.size_gt p) as H.
    apply Pos2Z.pos_lt_pos in H. rewrite Pos2Z.inj_pow in H. exact H.
Qed.

Lemma bounded_facts (m : positive) (e : Z) :
  bounded prec emax m e = true ->
  -1074 <= e <= 971 /\
  Zpos (digits2_pos m) <= 53 /\
  (-1074 < e -> Zpos (digits2_pos m) = 53).
Proof.
  unfold bounded, canonical_mantissa, fexp, emin, prec, emax.
  intros H. apply andb_true_iff in H. destruct H as [H1 H2].
  apply Z.eqb_eq in H1. apply Z.leb_le in H2. lia.
Qed.

Lemma finite_ord (m : positive) (e : Z) :
  bounded prec emax m e = true ->
  (0 < (e + 1075) * 9007199254740992 + Zpos m < 36028797018963968000) /\ 
  (Zpos m < 9007199254740992).
Proof.
  intros H. destruct (bounded_facts m e H) as (He & Hd & _).
  pose proof (digits2_bounds m) as [_ Hm].
  assert (2 ^ Zpos (digits2_pos m) <= 2 ^ 53) by (apply Z.pow_le_mono_r; lia).
  change (2 ^ 53) with 9007199254740992 in *. lia.
Qed.

Ltac compare_is :=
  apply f_equal; symmetry;
  first [ apply Z.compare_lt_iff | apply Z.compare_eq_iff | apply Z.compare_gt_iff ];
  lia.

Lemma SFcompare_ord (x y : spec_float) :
  valid_binary x = true -> valid_binary y = true ->
  x <> S754_nan -> y <> S754_nan ->
  SFcompare x y = Some (ord x ?= ord y).
Proof.
  intros Vx Vy Nx Ny.
  destruct x as [sx|sx| |sx mx ex]; [| |congruence|];
  destruct y as [sy|sy| |sy my ey]; try congruence; simpl in Vx, Vy;
    try (pose proof (finite_ord _ _ Vx) as [Bx Mx]);
    try (pose proof (finite_ord _ _ Vy) as [By My]);
    unfold SFcompare, ord; cbv zeta;
    try (destruct sx); try (destruct sy); try compare_is.
  - destruct (Z.compare_spec ex ey) as [->|Hlt|Hgt]; try compare_is.
    change (Pos.compare_cont Eq mx my) with (mx ?= my)%positive.
    destruct (Pos.compare_spec mx my) as [->|H|H]; simpl; compare_is.
  - destruct (Z.compare_spec ex ey) as [->|Hlt|Hgt]; try compare_is.
    change (Pos.compare_cont Eq mx my) with (mx ?= my)%positive.
    destruct (Pos.compare_spec mx my) as [->|H|H]; simpl; compare_is.
Qed.

(** *** Alignment *)

Lemma iter_xO (m d : positive) : Zpos (Pos.iter xO m d) = Zpos m * 2 ^ Zpos d.
Proof.
  induction d as [|d IH] using Pos.peano_ind.
  - change (Pos.iter xO m 1) with (m~0)%positive.
    rewrite Pos2Z.inj_xO, Z.pow_1_r. lia.
  - rewrite Pos.iter_succ, Pos2Z.inj_succ, Z.pow_succ_r, Pos2Z.inj_xO, IH by lia.
    lia.
Qed.

Lemma shl_align_fst (m : positive) (e e' : Z) :
  e' <= e -> Zpos (fst (shl_align m e e')) = Zpos m * 2 ^ (e - e').
Proof.
  intros H. unfold shl_align.
  destruct (e' - e) as [|d|d] eqn:E; simpl.
  - replace (e - e') with 0 by lia. rewrite Z.pow_0_r. lia.
  - lia.
  - rewrite iter_xO. replace (e - e') with (Zpos d) by lia. reflexivity.
Qed.

Lemma shl_align_snd (m : positive) (e e' : Z) :
  snd (shl_align m e e') = e \/ snd (shl_align m e e') = e'.
Proof.
  unfold shl_align. destruct (e' - e); simpl; auto.
Qed.

(** A valid double with the smaller exponent is the smaller in magnitude. *)
Lemma smaller_exponent (mx my : positive) (ex ey : Z) :
  bounded prec emax mx ex = true ->
  bounded prec emax my ey = true ->
  ex < ey ->
  Zpos mx < Zpos my * 2 ^ (ey - ex).
Proof.
  intros Bx By Hlt.
  destruct (bounded_facts _ _ Bx) as (Hex & Hdx & _).
  destruct (bounded_facts _ _ By) as (_ & _ & Hdy).
  pose proof (digits2_bounds mx) as [_ Hmx].
  pose proof (digits2_bounds my) as [Hmy _].
  rewrite Hdy in Hmy by lia.
  assert (2 ^ Zpos (digits2_pos mx) <= 2 ^ 53) by (apply Z.pow_le_mono_r; lia).
  assert (2 ^ 1 <= 2 ^ (ey - ex)) by (apply Z.pow_le_mono_r; lia).
  change (2 ^ 53) with 9007199254740992 in *.
  change (2 ^ (53 - 1)) with 4503599627370496 in *.
  change (2 ^ 1) with 2 in *.
  nia.
Qed.

(** *** Rounding keeps a positive mantissa positive *)

Lemma iter_pos_iter {A} (f : A -> A) (p : positive) (x : A) :
  iter_pos f p x = Pos.iter f x p.
Proof.
  revert x. induction p as [p IH|p IH|]; intros x; simpl.
  - rewrite !IH, !Pos.iter_swap. reflexivity.
  - rewrite !IH. reflexivity.
  - reflexivity.
Qed.

Lemma shr_1_m (mrs : shr_record) :
  0 <= shr_m mrs -> shr_m (shr_1 mrs) = shr_m mrs / 2.
Proof.
  destruct mrs as [m r s]. simpl. intros H. rewrite <- Z.div2_div.
  destruct m as [|[p|p|]|p]; try reflexivity; lia.
Qed.

Lemma iter_shr_m (p : positive) (mrs : shr_record) :
  0 <= shr_m mrs -> shr_m (Pos.iter shr_1 mrs p) = shr_m mrs / 2 ^ Zpos p.
Proof.
  intros H. induction p as [|p IH] using Pos.peano_ind.
  - simpl. rewrite shr_1_m by exact H. reflexivity.
  - rewrite Pos.iter_succ, shr_1_m.
    + rewrite IH, Pos2Z.inj_succ, Z.pow_succ_r, Z.div_div by lia.
      f_equal. lia.
    + rewrite IH. apply Z.div_pos; lia.
Qed.

Lemma shr_fexp_pos (m : positive) (e : Z) (l : location) :
  -1074 <= e ->
  0 < shr_m (fst (shr_fexp prec emax (Zpos m) e l)) /\
  -1074 <= snd (shr_fexp prec emax (Zpos m) e l).
Proof.
  intros He. unfold shr_fexp, shr.
  assert (Hm : shr_m (shr_record_of_loc (Zpos m) l) = Zpos m)
    by (destruct l as [|[| |]]; reflexivity).
  destruct (fexp prec emax (Zdigits2 (Zpos m) + e) - e) as [|p|p] eqn:E; simpl;
    rewrite ?Hm; try lia.
  rewrite iter_pos_iter, iter_shr_m, Hm by (rewrite Hm; lia).
  unfold fexp, emin, prec, emax in E. simpl Zdigits2 in E.
  pose proof (digits2_bounds m) as [Hlo _].
  assert (Zpos p <= Zpos (digits2_pos m) - 1) by lia.
  assert (2 ^ Zpos p <= 2 ^ (Zpos (digits2_pos m) - 1))
    by (apply Z.pow_le_mono_r; lia).
  split; [|lia]. apply Z.div_str_pos. lia.
Qed.

Lemma round_nearest_even_pos (m : Z) (l : location) :
  0 < m -> 0 < round_nearest_even m l.
Proof.
  intros H. destruct l as [|[| |]]; simpl; try lia.
  destruct (Z.even m); lia.
Qed.

Lemma binary_round_aux_pos (s : bool) (m : positive) (e : Z) (l : location) :
  -1074 <= e ->
  (exists m' e', binary_round_aux prec emax s (Zpos m) e l = S754_finite s m' e')
  \/ binary_round_aux prec emax s (Zpos m) e l = S754_infinity s.
Proof.
  intros He. unfold binary_round_aux.
  pose proof (shr_fexp_pos m e l He) as [H1 H1e].
  destruct (shr_fexp prec emax (Zpos m) e l) as [mrs' e'] eqn:E1. simpl in H1, H1e.
  pose proof (round_nearest_even_pos (shr_m mrs') (loc_of_shr_record mrs') H1) as H2.
  destruct (round_nearest_even (shr_m mrs') (loc_of_shr_record mrs')) as [|q|q];
    try lia.
  pose proof (shr_fexp_pos q e' loc_Exact H1e) as [H3 _].
  destruct (shr_fexp prec emax (Zpos q) e' loc_Exact) as [mrs'' e''] eqn:E2.
  simpl in H3.
  destruct (shr_m mrs'') as [|r|r]; try lia.
  destruct (e'' <=? emax - prec); eauto.
Qed.

Lemma binary_round_pos (s : bool) (m : positive) (e : Z) :
  -1074 <= e ->
  (exists m' e', binary_round prec emax s m e = S754_finite s m' e')
  \/ binary_round prec emax s m e = S754_infinity s.
Proof.
  intros He. unfold binary_round.
  pose proof (shl_align_snd m e (fexp prec emax (Zpos (digits2_pos m) + e))) as Hs.
  destruct (shl_align m e (fexp prec emax (Zpos (digits2_pos m) + e))) as [mz ez].
  simpl in Hs. apply binary_round_aux_pos.
  unfold fexp, emin, prec, emax in Hs. lia.
Qed.

(** *** The sign of a difference *)

Lemma SFltb_ord (x y : spec_float) :
  valid_binary x = true -> valid_binary y = true ->
  x <> S754_nan -> y <> S754_nan ->
  SFltb x y = (ord x <? ord y).
Proof.
  intros Vx Vy Nx Ny. unfold SFltb, Z.ltb.
  rewrite (SFcompare_ord x y Vx Vy Nx Ny). reflexivity.
Qed.

Lemma SFeqb_ord (x y : spec_float) :
  valid_binary x = true -> valid_binary y = true ->
  x <> S754_nan -> y <> S754_nan ->
  SFeqb x y = (ord x =? ord y).
Proof.
  intros Vx Vy Nx Ny. unfold SFeqb.
  rewrite (SFcompare_ord x y Vx Vy Nx Ny).
  destruct (Z.eqb_spec (ord x) (ord y)) as [->|Hne].
  - rewrite Z.compare_refl. reflexivity.
  - destruct (ord x ?= ord y) eqn:E; try reflexivity.
    apply Z.compare_eq in E. contradiction.
Qed.

Lemma positive_normalize (d ez : Z) :
  -1074 <= ez ->
  SFltb (S754_zero false) (binary_normalize prec emax d ez false) = (0 <? d).
Proof.
  intros He. destruct d as [|p|p]; simpl.
  - reflexivity.
  - destruct (binary_round_pos false p ez He) as [(m' & e' & ->) | ->]; reflexivity.
  - destruct (binary_round_pos true p ez He) as [(m' & e' & ->) | ->]; reflexivity.
Qed.

Lemma SFsub_sign (x y : spec_float) :
  valid_binary x = true -> valid_binary y = true ->
  x <> S754_nan -> y <> S754_nan ->
  SFltb (S754_zero false) (SFsub prec emax y x) = SFltb x y.
Proof.
  intros Vx Vy Nx Ny.
  destruct x as [sx|sx| |sx mx ex]; [| |congruence|];
  destruct y as [sy|sy| |sy my ey]; try congruence;
    try (destruct sx; try destruct sy; reflexivity);
    try (destruct sy; try destruct sx; reflexivity).
  rewrite (SFltb_ord _ _ Vx Vy Nx Ny).
  simpl in Vx, Vy. unfold SFsub.
  destruct (bounded_facts _ _ Vx) as (Hex & _ & _).
  destruct (bounded_facts _ _ Vy) as (Hey & _ & _).
  destruct (finite_ord _ _ Vx) as [_ Mx].
  destruct (finite_ord _ _ Vy) as [_ My].
  cbv zeta. rewrite positive_normalize by lia.
  rewrite !shl_align_fst by lia.
  unfold ord. cbv zeta.
  assert (Hcases :
    (ex < ey /\ Z.min ey ex = ex /\ Zpos mx < Zpos my * 2 ^ (ey - ex)) \/
    (ex = ey /\ Z.min ey ex = ex) \/
    (ey < ex /\ Z.min ey ex = ey /\ Zpos my < Zpos mx * 2 ^ (ex - ey))).
  { destruct (Z.lt_total ex ey) as [H|[H|H]].
    - left. repeat split; [lia|lia|apply smaller_exponent; assumption].
    - right. left. lia.
    - right. right. repeat split; [lia|lia|apply smaller_exponent; assumption]. }
  destruct Hcases as [(H & -> & Hm) | [(-> & ->) | (H & -> & Hm)]];
    rewrite ?Z.sub_diag, ?Z.pow_0_r, ?Z.mul_1_r;
    destruct sx, sy; unfold cond_Zopp;
    match goal with
    | |- (0 <? ?d) = (?a <? ?b) =>
        destruct (Z.ltb_spec 0 d), (Z.ltb_spec a b); try reflexivity; exfalso; nia
    end.
Qed.

(** *** Primitive doubles *)

Lemma isNaN_false (x : float) : isNaN x = false -> Prim2SF x <> S754_nan.
Proof.
  unfold isNaN. rewrite eqb_spec. intros H E. rewrite E in H. discriminate.
Qed.

Lemma isNaN_true (x : float) : isNaN x = true -> Prim2SF x = S754_nan.
Proof.
  unfold isNaN. rewrite eqb_spec. intros H.
  destruct (Prim2SF x) as [s|s| |s m e] eqn:E; try reflexivity; exfalso;
    pose proof (Prim2SF_valid x) as V; rewrite E in V;
    rewrite SFeqb_ord in H by (assumption || discriminate);
    rewrite Z.eqb_refl in H; discriminate.
Qed.

Lemma ltb_fval (x y : float) :
  isNaN x = false -> isNaN y = false ->
  (x <? y)%float = (fval x <? fval y).
Proof.
  intros Hx Hy. rewrite ltb_spec. unfold fval.
  apply SFltb_ord; auto using Prim2SF_valid, isNaN_false.
Qed.

Lemma eqb_fval (x y : float) :
  isNaN x = false -> isNaN y = false ->
  (x =? y)%float = (fval x =? fval y).
Proof.
  intros Hx Hy. rewrite eqb_spec. unfold fval.
  apply SFeqb_ord; auto using Prim2SF_valid, isNaN_false.
Qed.

(** [y - x] is positive exactly when [x < y]. *)
Lemma sub_gt0 (x y : float) :
  isNaN x = false -> isNaN y = false ->
  (0 <? y - x)%float = (fval x <? fval y).
Proof.
  intros Hx Hy. rewrite <- ltb_fval by assumption.
  rewrite !ltb_spec, sub_spec.
  change (Prim2SF 0) with (S754_zero false).
  apply SFsub_sign; auto using Prim2SF_valid, isNaN_false.
Qed.

(** A [NaN] is not above zero. *)
Lemma nan_not_gt0 (v : float) : isNaN v = true -> (0 <? v)%float = false.
Proof.
  intros H. rewrite ltb_spec, (isNaN_true v H). reflexivity.
Qed.

(** A [NaN] operand makes the difference [NaN] and the comparison fail. *)
Lemma nan_operand (x y : float) :
  isNaN x = true \/ isNaN y = true ->
  (0 <? y - x)%float = false /\ (y =? x)%float = false.
Proof.
  intros H. rewrite ltb_spec, sub_spec, eqb_spec.
  destruct H as [H|H]; rewrite (isNaN_true _ H).
  - destruct (Prim2SF y) as [s|s| |s m e]; split; reflexivity.
  - split; reflexivity.
Qed.

(** Of two differences [y - x] and [x - y] at most one is positive. *)
Lemma sub_antisym (x y : float) :
  (0 <? y - x)%float = true -> (0 <? x - y)%float = false.
Proof.
  destruct (isNaN x) eqn:Hx; [intros _; apply nan_operand; auto|].
  destruct (isNaN y) eqn:Hy; [intros _; apply nan_operand; auto|].
  rewrite !sub_gt0 by assumption. lia.
Qed.
End FloatFacts.

(** ** Ranking Sorter: the order of the result *)

(** [SortCompare] reads [NaN] as [+0], neither of which is above zero. *)
Lemma SortCompare_gt0 {A} (cmp : A -> A -> float) (x y : A) :
  (0 <? SortCompare cmp x y)%float = (0 <? cmp x y)%float.
Proof.
  unfold SortCompare. destruct (isNaN (cmp x y)) eqn:E; [|reflexivity].
  rewrite (nan_not_gt0 _ E). reflexivity.
Qed.

Lemma lex_ltb_lexZ (ka kb : list float) :
  Forall (fun x => isNaN x = false) ka ->
  Forall (fun x => isNaN x = false) kb ->
  lex_ltb ka kb = lexZ (map fval ka) (map fval kb).
Proof.
  intros Ha. revert kb. induction Ha as [|a ka Ha _ IH]; intros kb Hb; [reflexivity|].
  destruct Hb as [|b kb Hb Hkb]; [reflexivity|]. simpl.
  rewrite ltb_fval, eqb_fval, IH by assumption. reflexivity.
Qed.

(** One stage of the comparator: when the keys differ their difference
    decides, otherwise the next stage does. *)
Lemma stage_gt0 (ka kb : float) (next : float) (rest : bool) :
  isNaN ka = false -> isNaN kb = false ->
  (0 <? next)%float = rest ->
  (0 <? (if num_neq kb ka then kb - ka else next))%float
  = ((fval ka <? fval kb)%Z || ((fval ka =? fval kb)%Z && rest)).
Proof.
  intros Ha Hb Hnext. unfold num_neq. rewrite (eqb_fval kb ka Hb Ha).
  destruct (Z.eqb_spec (fval kb) (fval ka)) as [E|E]; simpl.
  - rewrite E, Z.ltb_irrefl, Z.eqb_refl. exact Hnext.
  - rewrite (sub_gt0 ka kb Ha Hb).
    destruct (Z.eqb_spec (fval ka) (fval kb)) as [E'|_]; [congruence|].
    rewrite orb_false_r. reflexivity.
Qed.

(** On Teams with numeric keys the comparator is positive exactly when
    its first argument ranks below its second. *)
Lemma compareTeams_gt0 (a b : Team) :
  numeric a -> numeric b ->
  (0 <? compareTeams a b)%float = ranks_below a b.
Proof.
  intros Ha Hb. unfold ranks_below. rewrite (lex_ltb_lexZ _ _ Ha Hb).
  unfold numeric, keys in Ha, Hb.
  inversion Ha as [|? ? Ha1 Ha']; subst. inversion Ha' as [|? ? Ha2 Ha'']; subst.
  inversion Ha'' as [|? ? Ha3 Ha3']; subst. inversion Ha3' as [|? ? Ha4 Ha4']; subst.
  inversion Ha4' as [|? ? Ha5 _]; subst.
  inversion Hb as [|? ? Hb1 Hb']; subst. inversion Hb' as [|? ? Hb2 Hb'']; subst.
  inversion Hb'' as [|? ? Hb3 Hb3']; subst. inversion Hb3' as [|? ? Hb4 Hb4']; subst.
  inversion Hb4' as [|? ? Hb5 _]; subst.
  unfold compareTeams, keys. simpl map. simpl lexZ.
  repeat (apply stage_gt0; [assumption|assumption|]).
  rewrite andb_false_r, orb_false_r. apply sub_gt0; assumption.
Qed.

Lemma lexZ_asym (ka kb : list Z) : lexZ ka kb = true -> lexZ kb ka = false.
Proof.
  revert kb. induction ka as [|a ka IH]; intros [|b kb]; simpl; try reflexivity;
    try discriminate.
  intros H.
  destruct (Z.ltb_spec a b), (Z.ltb_spec b a), (Z.eqb_spec a b), (Z.eqb_spec b a);
    simpl in *; try lia; try reflexivity; try discriminate.
  apply IH, H.
Qed.

Lemma lexZ_negtrans (ka kb kc : list Z) :
  length ka = length kb -> length kb = length kc ->
  lexZ ka kb = false -> lexZ kb kc = false -> lexZ ka kc = false.
Proof.
  revert kb kc. induction ka as [|a ka IH]; intros [|b kb] [|c kc]; simpl;
    try reflexivity; try discriminate.
  intros L1 L2 H1 H2. injection L1 as L1. injection L2 as L2.
  destruct (Z.ltb_spec a b), (Z.ltb_spec b c), (Z.ltb_spec a c),
           (Z.eqb_spec a b), (Z.eqb_spec b c), (Z.eqb_spec a c);
    simpl in *; try lia; try reflexivity; try discriminate.
  eapply IH; eassumption.
Qed.

Lemma ranks_below_asym (a b : Team) :
  numeric a -> numeric b -> ranks_below a b = true -> ranks_below b a = false.
Proof.
  intros Ha Hb. unfold ranks_below.
  rewrite (lex_ltb_lexZ _ _ Ha Hb), (lex_ltb_lexZ _ _ Hb Ha). apply lexZ_asym.
Qed.

Lemma ranks_below_negtrans (a b c : Team) :
  numeric a -> numeric b -> numeric c ->
  ranks_below a b = false -> ranks_below b c = false -> ranks_below a c = false.
Proof.
  intros Ha Hb Hc. unfold ranks_below.
  rewrite (lex_ltb_lexZ _ _ Ha Hb), (lex_ltb_lexZ _ _ Hb Hc), (lex_ltb_lexZ _ _ Ha Hc).
  apply lexZ_negtrans; reflexivity.
Qed.

Lemma insert_In {A} (cmp : A -> A -> float) (x z : A) (l : list A) :
  In z (insert cmp x l) -> z = x \/ In z l.
Proof.
  intros H.
  apply (Permutation_in z (Permutation_sym (insert_Permutation cmp x l))) in H.
  destruct H as [<-|H]; auto.
Qed.

Lemma insert_non_increasing (x : Team) (l : list Team) :
  numeric x -> Forall numeric l ->
  non_increasing l -> non_increasing (insert compareTeams x l).
Proof.
  unfold non_increasing. intros Hx Hl Hs.
  induction Hs as [|y l Hs IH Hy]; simpl.
  - constructor; constructor.
  - inversion Hl as [|? ? Hny Hnl]; subst.
    rewrite SortCompare_gt0, (compareTeams_gt0 x y Hx Hny).
    destruct (ranks_below x y) eqn:E.
    + constructor; [apply IH, Hnl|].
      apply Forall_forall. intros z Hz. apply insert_In in Hz.
      destruct Hz as [->|Hz].
      * apply ranks_below_asym; assumption.
      * rewrite Forall_forall in Hy. apply Hy, Hz.
    + constructor; [constructor; assumption|].
      constructor; [exact E|].
      rewrite Forall_forall in Hy, Hnl |- *. intros z Hz.
      apply (ranks_below_negtrans x y z); auto.
Qed.

Lemma sortTeams_numeric (l : list Team) :
  Forall numeric l -> Forall numeric (sortTeams l).
Proof.
  intros H. rewrite Forall_forall in H |- *. intros z Hz. apply H.
  apply (Permutation_in z (Permutation_sym (Array_sort_Permutation compareTeams l))).
  exact Hz.
Qed.

Lemma sortTeams_non_increasing (l : list Team) :
  Forall numeric l -> non_increasing (sortTeams l).
Proof.
  induction 1 as [|x l Hx Hl IH]; simpl.
  - constructor.
  - apply insert_non_increasing; [exact Hx | apply sortTeams_numeric, Hl | exact IH].
Qed.

(** Descending rank order, read through the comparator. *)
Lemma non_increasing_comparator (l : list Team) :
  Forall numeric l -> non_increasing l -> comparator_sorted l.
Proof.
  unfold non_increasing, comparator_sorted. intros Hn Hs.
  induction Hs as [|y l Hs IH Hy]; constructor.
  - inversion Hn; subst. apply IH. assumption.
  - inversion Hn as [|? ? Hny Hnl]; subst.
    rewrite Forall_forall in Hy, Hnl |- *. intros z Hz. unfold in_order.
    rewrite SortCompare_gt0, compareTeams_gt0 by auto. apply Hy, Hz.
Qed.

(** One stage of the comparator and of its converse: at most one of the
    two answers is positive, [NaN] keys included. *)
Lemma stage_antisym (ka kb : float) (next next' : float) :
  ((0 <? next)%float = true -> (0 <? next')%float = false) ->
  (0 <? (if num_neq kb ka then kb - ka else next))%float = true ->
  (0 <? (if num_neq ka kb then ka - kb else next'))%float = false.
Proof.
  intros Hnext. unfold num_neq.
  destruct (isNaN ka) eqn:Ha.
  { destruct (nan_operand ka kb (or_introl Ha)) as [H1 H2]. rewrite H2. simpl.
    rewrite H1. discriminate. }
  destruct (isNaN kb) eqn:Hb.
  { destruct (nan_operand ka kb (or_intror Hb)) as [H1 H2]. rewrite H2. simpl.
    rewrite H1. discriminate. }
  rewrite (eqb_fval kb ka Hb Ha), (eqb_fval ka kb Ha Hb), Z.eqb_sym.
  destruct (fval ka =? fval kb)%Z; simpl; [exact Hnext | apply sub_antisym].
Qed.

Lemma compareTeams_antisym (a b : Team) :
  (0 <? compareTeams a b)%float = true -> (0 <? compareTeams b a)%float = false.
Proof.
  unfold compareTeams. repeat apply stage_antisym. apply sub_antisym.
Qed.




(** * Further properties of the pipeline *)

(** ** Ranking Sorter: ties and ranked input *)

Lemma tied_not_below (a x y : Team) :
  numeric a -> numeric x -> numeric y ->
  tied a x = true -> tied a y = true -> ranks_below x y = false.
Proof.
  unfold tied. intros Ha Hx Hy Tx Ty.
  apply andb_true_iff in Tx. apply andb_true_iff in Ty.
  destruct Tx as [_ Tx], Ty as [Ty _].
  apply negb_true_iff in Tx. apply negb_true_iff in Ty.
  exact (ranks_below_negtrans x a y Hx Ha Hy Tx Ty).
Qed.

Lemma insert_tied (a x : Team) (l : list Team) :
  numeric a -> numeric x -> Forall numeric l ->
  filter (tied a) (insert compareTeams x l) = filter (tied a) (x :: l).
Proof.
  intros Ha Hx Hl. induction Hl as [|y l Hy Hl IH]; [reflexivity|].
  simpl insert. rewrite SortCompare_gt0, (compareTeams_gt0 x y Hx Hy).
  destruct (ranks_below x y) eqn:E; [|reflexivity].
  simpl filter in *. rewrite IH.
  destruct (tied a x) eqn:Tx, (tied a y) eqn:Ty; try reflexivity.
  rewrite (tied_not_below a x y Ha Hx Hy Tx Ty) in E. discriminate.
Qed.

(** X1. [sortTeams] is stable on Teams with numeric keys: the teams tied
    with any given team come out in the order they went in. *)
Theorem sortTeams_stable (a : Team) (l : list Team) :
  numeric a -> Forall numeric l ->
  filter (tied a) (sortTeams l) = filter (tied a) l.
Proof.
  intros Ha Hl. induction Hl as [|x l Hx Hl IH]; [reflexivity|].
  change (sortTeams (x :: l)) with (insert compareTeams x (sortTeams l)).
  rewrite (insert_tied a x _ Ha Hx (sortTeams_numeric l Hl)).
  simpl. rewrite IH. reflexivity.
Qed.

Lemma sortTeams_stable_witness :
  filter (tied team_A) (sortTeams [team_A; team_B; team_C])
  = filter (tied team_A) [team_A; team_B; team_C].
Proof.
  apply (sortTeams_stable team_A [team_A; team_B; team_C]); repeat constructor.
Defined.

Lemma sortTeams_ranked (l : list Team) :
  Forall numeric l -> non_increasing l -> sortTeams l = l.
Proof.
  unfold non_increasing. intros Hn Hs.
  induction Hs as [|x l Hs IH Hx]; [reflexivity|].
  inversion Hn as [|? ? Hnx Hnl]; subst.
  change (sortTeams (x :: l)) with (insert compareTeams x (sortTeams l)).
  rewrite (IH Hnl).
  destruct l as [|y l']; [reflexivity|]. simpl.
  inversion Hnl as [|? ? Hny _]; subst. inversion Hx as [|? ? Hxy _]; subst.
  rewrite SortCompare_gt0, (compareTeams_gt0 x y Hnx Hny), Hxy. reflexivity.
Qed.

(** X2. On Teams with numeric keys, a collection already in descending
    rank order is returned as it is, so sorting twice is sorting once. *)
Theorem sortTeams_idempotent (l : list Team) :
  Forall numeric l ->
  (non_increasing l -> sortTeams l = l) /\
  sortTeams (sortTeams l) = sortTeams l.
Proof.
  intros Hn. split; [apply sortTeams_ranked, Hn|].
  apply sortTeams_ranked;
    [apply sortTeams_numeric, Hn | apply sortTeams_non_increasing, Hn].
Qed.

Lemma sortTeams_idempotent_witness :
  (non_increasing [team_B; team_A; team_C] ->
   sortTeams [team_B; team_A; team_C] = [team_B; team_A; team_C]) /\
  sortTeams (sortTeams [team_B; team_A; team_C]) = sortTeams [team_B; team_A; team_C].
Proof.
  apply (sortTeams_idempotent [team_B; team_A; team_C]).
  repeat constructor.
Defined.

(** ** Transport layer: what is called, and recovery *)

Lemma direct_gives_run {A} (W : World) (read : Response -> result A)
    (tr : trace) (url : ustring) (hs : headers) (v : A) :
  direct_gives W read tr url hs v ->
  bindIO (fetch W url hs)
    (fun res => if negb (ok res) then throw (http_error res) else lift (read res)) tr
  = (OK v, tr ++ [Fetch url hs]).
Proof.
  unfold bindIO, fetch, lift. intros (res & H & Hok & Hread).
  rewrite H, Hok, Hread. reflexivity.
Qed.

Lemma app_two {A} (l : list A) (x y : A) : (l ++ [x]) ++ [y] = l ++ [x; y].
Proof. rewrite <- app_assoc. reflexivity. Qed.

(** X3. [httpGetJson] returns what the direct fetch read, without running
    [curl], when the direct fetch succeeds; and when the direct fetch fails
    but [curl] prints a text that [JSON.parse] accepts, it returns the
    parsed value, after exactly the fetch and the [curl] run. *)
Theorem httpGetJson_recovers (rt : Runtime) (W : World)
    (url : ustring) (hs : headers) (tr : trace) :
  (forall v,
      direct_gives W json tr url hs v ->
      httpGetJson rt W url hs tr = (OK v, tr ++ [Fetch url hs])) /\
  (forall e out v,
      direct_fails W json tr url hs e ->
      curl_answer W (tr ++ [Fetch url hs]) (curl_json_args url hs) = OK out ->
      JSON_parse rt out = OK v ->
      httpGetJson rt W url hs tr
      = (OK v, tr ++ [Fetch url hs; Curl (curl_json_args url hs)])).
Proof.
  split.
  - intros v H. unfold httpGetJson, try_catchIO.
    rewrite (direct_gives_run _ _ _ _ _ _ H). reflexivity.
  - intros e out v Hd Hc Hp. unfold httpGetJson, try_catchIO at 1.
    rewrite (direct_fails_run _ _ _ _ _ _ Hd).
    unfold try_catchIO, bindIO, execFile_curl, lift. rewrite Hc, Hp, app_two.
    reflexivity.
Qed.

Lemma httpGetJson_recovers_witness :
  httpGetJson (reading (u "[]") (VArr [])) (curl_only (u "[]"))
    (u "https://example.com/") [] []
  = (OK (VArr []),
     [Fetch (u "https://example.com/") [];
      Curl (curl_json_args (u "https://example.com/") [])]).
Proof.
  apply (proj2 (httpGetJson_recovers (reading (u "[]") (VArr [])) (curl_only (u "[]"))
                  (u "https://example.com/") [] []) (Rejected 1) (u "[]")).
  - left. reflexivity.
  - reflexivity.
  - reflexivity.
Defined.

(** X4. [httpGetText] returns the text of the direct fetch, without
    running [curl], when the direct fetch succeeds; and when the direct
    fetch fails but [curl] runs, it returns the output of [curl] as it is,
    after exactly the fetch and the [curl] run. *)
Theorem httpGetText_recovers (W : World)
    (url : ustring) (hs : headers) (tr : trace) :
  (forall s,
      direct_gives W text tr url hs s ->
      httpGetText W url hs tr = (OK s, tr ++ [Fetch url hs])) /\
  (forall e out,
      direct_fails W text tr url hs e ->
      curl_answer W (tr ++ [Fetch url hs]) (curl_text_args url hs) = OK out ->
      httpGetText W url hs tr
      = (OK out, tr ++ [Fetch url hs; Curl (curl_text_args url hs)])).
Proof.
  split.
  - intros s H. unfold httpGetText, try_catchIO.
    rewrite (direct_gives_run _ _ _ _ _ _ H). reflexivity.
  - intros e out Hd Hc. unfold httpGetText, try_catchIO at 1.
    rewrite (direct_fails_run _ _ _ _ _ _ Hd).
    unfold try_catchIO, bindIO, execFile_curl, ret. rewrite Hc, app_two.
    reflexivity.
Qed.

Lemma httpGetText_recovers_witness :
  httpGetText (curl_only (u "<html>")) (u "https://example.com/") [] []
  = (OK (u "<html>"),
     [Fetch (u "https://example.com/") [];
      Curl (curl_text_args (u "https://example.com/") [])]).
Proof.
  apply (proj2 (httpGetText_recovers (curl_only (u "<html>"))
                  (u "https://example.com/") [] []) (Rejected 1)).
  - left. reflexivity.
  - reflexivity.
Defined.

Lemma httpGetJson_calls (rt : Runtime) (W : World)
    (url : ustring) (hs : headers) (tr : trace) :
  exists calls,
    snd (httpGetJson rt W url hs tr) = tr ++ calls /\
    calls_of url hs (curl_json_args url hs) calls.
Proof.
  unfold httpGetJson, try_catchIO, bindIO, fetch, execFile_curl, throw, lift, calls_of.
  destruct (fetch_answer W tr url hs) as [res|e].
  - destruct (negb (ok res)).
    + destruct (curl_answer W (tr ++ [Fetch url hs]) (curl_json_args url hs)) as [out|e'].
      * destruct (JSON_parse rt out); simpl; rewrite app_two; eauto.
      * simpl; rewrite app_two; eauto.
    + destruct (json res); [simpl; eauto|].
      destruct (curl_answer W (tr ++ [Fetch url hs]) (curl_json_args url hs)) as [out|e'].
      * destruct (JSON_parse rt out); simpl; rewrite app_two; eauto.
      * simpl; rewrite app_two; eauto.
  - destruct (curl_answer W (tr ++ [Fetch url hs]) (curl_json_args url hs)) as [out|e'].
    + destruct (JSON_parse rt out); simpl; rewrite app_two; eauto.
    + simpl; rewrite app_two; eauto.
Qed.

Lemma httpGetText_calls (W : World) (url : ustring) (hs : headers) (tr : trace) :
  exists calls,
    snd (httpGetText W url hs tr) = tr ++ calls /\
    calls_of url hs (curl_text_args url hs) calls.
Proof.
  unfold httpGetText, try_catchIO, bindIO, fetch, execFile_curl, throw, lift, ret,
    calls_of.
  destruct (fetch_answer W tr url hs) as [res|e].
  - destruct (negb (ok res)).
    + destruct (curl_answer W (tr ++ [Fetch url hs]) (curl_text_args url hs));
        simpl; rewrite app_two; eauto.
    + destruct (text res); [simpl; eauto|].
      destruct (curl_answer W (tr ++ [Fetch url hs]) (curl_text_args url hs));
        simpl; rewrite app_two; eauto.
  - destruct (curl_answer W (tr ++ [Fetch url hs]) (curl_text_args url hs));
      simpl; rewrite app_two; eauto.
Qed.

(** ** Extractors and orchestrator: what a result looks like *)

Lemma apiTeams_sorted (rt : Runtime) (data : val) (ts : list Team) :
  apiTeams rt data = OK ts -> ts <> [] /\ exists l, ts = sortTeams l.
Proof.
  intros H. split; [intros ->; exact (apiTeams_not_empty rt data H)|].
  unfold apiTeams in H. destruct (apiRecords rt data) as [[|t l]|e]; simpl in H;
    try discriminate.
  injection H as <-. exists (t :: l). reflexivity.
Qed.

Lemma embeddedTeams_sorted (rt : Runtime) (html : ustring) (ts : list Team) :
  embeddedTeams rt html = OK (Some ts) -> exists l, ts = sortTeams l.
Proof.
  unfold embeddedTeams.
  destruct (RegExp.exec rt Patterns.jsonMatch_flags Patterns.jsonMatch_rx html)
    as [m|]; [|discriminate].
  unfold try_catch.
  destruct (JSON_parse_val rt (RegExp.group m 1)) as [st|e]; simpl; [|discriminate].
  destruct (standingsTeams rt st) as [[|t l]|e]; simpl; try discriminate.
  intros [= <-]. exists (t :: l). reflexivity.
Qed.

Lemma parseFromHtml_sorted (rt : Runtime) (html : ustring) (ts : list Team) :
  parseFromHtml rt html = OK ts -> exists l, ts = sortTeams l.
Proof.
  unfold parseFromHtml. intros H.
  destruct (embeddedTeams rt html) as [[ts'|]|e] eqn:E; simpl in H;
    [| |discriminate].
  - injection H as <-. exact (embeddedTeams_sorted rt html ts' E).
  - bind_inv H. bind_inv H. injection H as <-. eauto.
Qed.

Lemma parseWikipedia_sorted (rt : Runtime) (html : ustring) (ts : list Team) :
  parseWikipedia rt html = OK ts -> exists l, ts = sortTeams l.
Proof.
  unfold parseWikipedia. intros H.
  destruct (RegExp.exec rt Patterns.tableMatch_flags Patterns.tableMatch_rx html)
    as [m|].
  - bind_inv H. bind_inv H. injection H as <-. eauto.
  - injection H as <-. exists []. reflexivity.
Qed.

Lemma fetchApiJson_run (rt : Runtime) (W : World)
    (env : ustring -> option ustring) (tr : trace) :
  snd (fetchApiJson rt W env tr)
  = snd (httpGetJson rt W (API_URL env) (api_headers env) tr) /\
  forall ts, fst (fetchApiJson rt W env tr) = OK ts ->
             ts <> [] /\ exists l, ts = sortTeams l.
Proof.
  unfold fetchApiJson, bindIO, lift.
  destruct (httpGetJson rt W (API_URL env) (api_headers env) tr) as [[data|e] tr'];
    simpl; split; try reflexivity; try discriminate.
  intros ts. apply apiTeams_sorted.
Qed.

(** What [fetchMedals] resolves to. *)
Lemma fetchMedals_result (rt : Runtime) (W : World)
    (env : ustring -> option ustring) (tr : trace) (ts : list Team) :
  fst (fetchMedals rt W env tr) = OK ts ->
  ts <> [] /\ exists l, ts = sortTeams l.
Proof.
  rewrite fetchMedals_tree.
  pose proof (fetchApiJson_run rt W env tr) as [_ Hapi].
  destruct (fetchApiJson rt W env tr) as [[ts0|e] tr1]; simpl in *.
  { intros [= <-]. apply Hapi. reflexivity. }
  destruct (httpGetText W (PAGE_URL env) page_headers tr1) as [[html|e2] tr2];
    simpl; [|discriminate].
  destruct (parseFromHtml rt html) as [[|t l1]|e'] eqn:Ep; simpl; [| |discriminate].
  - destruct (httpGetText W (WIKI_URL env) page_headers tr2) as [[wh|e3] tr3];
      simpl; [|discriminate].
    destruct (parseWikipedia rt wh) as [[|t l1]|e'] eqn:Ew; simpl; try discriminate.
    intros [= <-]. split; [discriminate|]. eapply parseWikipedia_sorted, Ew.
  - intros [= <-]. split; [discriminate|]. eapply parseFromHtml_sorted, Ep.
Qed.

(** X5. [fetchMedals] never resolves to an empty collection: whichever
    tier answers, the teams returned are at least one. *)
Theorem fetchMedals_never_empty (rt : Runtime) (W : World)
    (env : ustring -> option ustring) (tr : trace) :
  fst (fetchMedals rt W env tr) <> OK [].
Proof.
  intros H. apply fetchMedals_result in H. destruct H as [H _]. apply H. reflexivity.
Qed.

(** X6. Whatever tier answers, nothing rearranges the teams after the
    sort: when the keys of the teams [fetchMedals] resolves to are numbers
    other than [NaN], the teams are in descending rank order, and the
    comparator asks for none of them to come after a later one. *)
Theorem fetchMedals_sorted (rt : Runtime) (W : World)
    (env : ustring -> option ustring) (tr : trace) (ts : list Team) :
  fst (fetchMedals rt W env tr) = OK ts ->
  Forall numeric ts ->
  non_increasing ts /\ comparator_sorted ts.
Proof.
  intros H Hn. apply fetchMedals_result in H. destruct H as [_ [l ->]].
  assert (Hl : Forall numeric l).
  { rewrite Forall_forall in Hn |- *. intros z Hz. apply Hn.
    apply (Permutation_in z (Array_sort_Permutation compareTeams l)). exact Hz. }
  split.
  - apply sortTeams_non_increasing, Hl.
  - apply non_increasing_comparator; [exact Hn | apply sortTeams_non_increasing, Hl].
Qed.

Lemma fetchMedals_sorted_witness :
  non_increasing [norway_team 53.5; italy_team] /\
  comparator_sorted [norway_team 53.5; italy_team].
Proof.
  apply (fetchMedals_sorted basic_runtime (serving (OK two_row_response) (OK []))
           no_env []).
  - vm_compute. reflexivity.
  - repeat constructor.
Defined.

(** X7. The outside calls of one run of [fetchMedals]: the API fetch
    (with its [curl] retry at most), then at most the primary page's, then
    at most the secondary page's, and the secondary page is never asked
    for unless the primary page was: six calls at most. *)
Theorem fetchMedals_calls (rt : Runtime) (W : World)
    (env : ustring -> option ustring) (tr : trace) :
  exists a p w,
    snd (fetchMedals rt W env tr) = tr ++ a ++ p ++ w /\
    calls_of (API_URL env) (api_headers env)
             (curl_json_args (API_URL env) (api_headers env)) a /\
    (p = [] \/
     calls_of (PAGE_URL env) page_headers
              (curl_text_args (PAGE_URL env) page_headers) p) /\
    (w = [] \/
     p <> [] /\
     calls_of (WIKI_URL env) page_headers
              (curl_text_args (WIKI_URL env) page_headers) w).
Proof.
  rewrite fetchMedals_tree.
  pose proof (fetchApiJson_run rt W env tr) as [Htr _].
  destruct (httpGetJson_calls rt W (API_URL env) (api_headers env) tr)
    as (a & Ha & Ca).
  rewrite <- Htr in Ha. clear Htr.
  destruct (fetchApiJson rt W env tr) as [[ts0|e] tr1]; simpl in Ha; subst tr1.
  { exists a, [], []. rewrite !app_nil_r. simpl. auto. }
  destruct (httpGetText_calls W (PAGE_URL env) page_headers (tr ++ a))
    as (p & Hp & Cp).
  assert (Pne : p <> []) by (destruct Cp as [-> | ->]; discriminate).
  destruct (httpGetText W (PAGE_URL env) page_headers (tr ++ a)) as [[html|e2] tr2];
    simpl in Hp; subst tr2.
  2:{ exists a, p, []. rewrite app_nil_r, app_assoc. simpl. auto. }
  assert (Hstop : forall r : result (list Team),
            exists a0 p0 w0,
              snd (r, (tr ++ a) ++ p) = tr ++ a0 ++ p0 ++ w0 /\
              calls_of (API_URL env) (api_headers env)
                (curl_json_args (API_URL env) (api_headers env)) a0 /\
              (p0 = [] \/ calls_of (PAGE_URL env) page_headers
                            (curl_text_args (PAGE_URL env) page_headers) p0) /\
              (w0 = [] \/ p0 <> [] /\
                 calls_of (WIKI_URL env) page_headers
                   (curl_text_args (WIKI_URL env) page_headers) w0)).
  { intros r. exists a, p, []. rewrite app_nil_r, app_assoc. simpl. auto. }
  destruct (parseFromHtml rt html) as [[|t l1]|e']; try apply Hstop.
  destruct (httpGetText_calls W (WIKI_URL env) page_headers ((tr ++ a) ++ p))
    as (w & Hw & Cw).
  assert (Hwiki : forall r : result (list Team),
            exists a0 p0 w0,
              snd (r, ((tr ++ a) ++ p) ++ w) = tr ++ a0 ++ p0 ++ w0 /\
              calls_of (API_URL env) (api_headers env)
                (curl_json_args (API_URL env) (api_headers env)) a0 /\
              (p0 = [] \/ calls_of (PAGE_URL env) page_headers
                            (curl_text_args (PAGE_URL env) page_headers) p0) /\
              (w0 = [] \/ p0 <> [] /\
                 calls_of (WIKI_URL env) page_headers
                   (curl_text_args (WIKI_URL env) page_headers) w0)).
  { intros r. exists a, p, w. simpl. rewrite <- !app_assoc. auto 6. }
  destruct (httpGetText W (WIKI_URL env) page_headers ((tr ++ a) ++ p))
    as [[wh|e3] tr3]; simpl in Hw; subst tr3; [|apply Hwiki].
  destruct (parseWikipedia rt wh) as [[|t l1]|e']; apply Hwiki.
Qed.

(** ** The route handler *)

Lemma medalsHandler_run (rt : Runtime) (W : World)
    (env : ustring -> option ustring) (clock : trace -> ustring) (tr : trace) :
  medalsHandler rt W env clock tr =
  match fetchMedals rt W env tr with
  | (OK ts, tr') => (OK (report_reply env (clock tr') ts), tr')
  | (Err _, tr') => (OK error_reply, tr')
  end.
Proof.
  unfold medalsHandler, try_catchIO, bindIO, ret.
  destruct (fetchMedals rt W env tr) as [[ts|e] tr']; reflexivity.
Qed.

(** X8. The handler always answers. It answers 200 with the
    [Cache-Control: no-store] header and a report of the teams exactly
    when [fetchMedals] resolves, and then the teams are at least one;
    whatever error [fetchMedals] rejects with, it answers the same 500
    reply, whose body says only [Unable to load medal data] and which
    carries no header of the handler. *)
Theorem medalsHandler_reply (rt : Runtime) (W : World)
    (env : ustring -> option ustring) (clock : trace -> ustring) (tr : trace) :
  let run := fetchMedals rt W env tr in
  (forall ts, fst run = OK ts ->
     ts <> [] /\
     medalsHandler rt W env clock tr
     = (OK (report_reply env (clock (snd run)) ts), snd run)) /\
  (forall e, fst run = Err e ->
     medalsHandler rt W env clock tr = (OK error_reply, snd run)).
Proof.
  cbv zeta. rewrite medalsHandler_run.
  pose proof (fetchMedals_result rt W env tr) as Hr.
  destruct (fetchMedals rt W env tr) as [[ts|e] tr']; simpl in *; split;
    try discriminate.
  - intros ? [= <-]. split; [apply (Hr ts eq_refl) | reflexivity].
  - intros ? _. reflexivity.
Qed.

Lemma medalsHandler_reply_witness :
  medalsHandler basic_runtime offline no_env noon []
  = (OK error_reply, snd (fetchMedals basic_runtime offline no_env [])).
Proof.
  apply (proj2 (medalsHandler_reply basic_runtime offline no_env noon [])
           (Rejected 1)).
  reflexivity.
Defined.

Lemma page_request_differs (env : ustring -> option ustring) (url : ustring) :
  Fetch url (api_headers env) <> Fetch (PAGE_URL env) page_headers.
Proof.
  unfold api_headers, page_headers. intros H. injection H as _ H.
  destruct (PAMEDIA_KEY env) as [[|c s]|]; discriminate H.
Qed.

(** X9. When the API tier answers, the handler reports its teams with
    status 200 and still names the primary page as the [source], although
    the run made the API's calls only and the request for the primary page
    is not among them. *)
Theorem source_names_page_not_fetched (rt : Runtime) (W : World)
    (env : ustring -> option ustring) (clock : trace -> ustring) (tr : trace)
    (ts : list Team) :
  fst (fetchApiJson rt W env tr) = OK ts ->
  exists reply calls,
    medalsHandler rt W env clock tr = (OK reply, tr ++ calls) /\
    reply_status reply = 200%N /\
    reply_teams reply = Some ts /\
    reply_source reply = Some (PAGE_URL env) /\
    calls_of (API_URL env) (api_headers env)
             (curl_json_args (API_URL env) (api_headers env)) calls /\
    ~ In (Fetch (PAGE_URL env) page_headers) calls.
Proof.
  intros Hapi. rewrite medalsHandler_run, fetchMedals_tree.
  pose proof (fetchApiJson_run rt W env tr) as [Htr _].
  destruct (httpGetJson_calls rt W (API_URL env) (api_headers env) tr)
    as (a & Ha & Ca).
  rewrite <- Htr in Ha. clear Htr.
  destruct (fetchApiJson rt W env tr) as [[ts0|e] tr1]; simpl in *; [|discriminate].
  injection Hapi as ->. subst tr1.
  eexists _, a. repeat split; try assumption.
  intros Hin. destruct Ca as [-> | ->]; simpl in Hin.
  - destruct Hin as [H|[]]. exact (page_request_differs env _ H).
  - destruct Hin as [H|[H|[]]]; [exact (page_request_differs env _ H) | discriminate].
Qed.

Lemma source_names_page_not_fetched_witness :
  exists reply calls,
    medalsHandler basic_runtime (serving (OK norway_response) (OK [])) no_env noon []
    = (OK reply, [] ++ calls) /\
    reply_status reply = 200%N /\
    reply_teams reply = Some [norway_team 53.5] /\
    reply_source reply = Some (PAGE_URL no_env) /\
    calls_of (API_URL no_env) (api_headers no_env)
             (curl_json_args (API_URL no_env) (api_headers no_env)) calls /\
    ~ In (Fetch (PAGE_URL no_env) page_headers) calls.
Proof.
  apply (source_names_page_not_fetched basic_runtime
           (serving (OK norway_response) (OK [])) no_env noon []).
  vm_compute. reflexivity.
Defined.

(** ** Doubles at or above zero *)

Section Nonneg.
Local Open Scope Z_scope.

Lemma shr_fexp_nonneg (m e : Z) (l : location) :
  0 <= m -> 0 <= shr_m (fst (shr_fexp prec emax m e l)).
Proof.
  intros Hm. unfold shr_fexp, shr.
  assert (Hr : shr_m (shr_record_of_loc m l) = m)
    by (destruct l as [|[| |]]; reflexivity).
  destruct (fexp prec emax (Zdigits2 m + e) - e) as [|p|p]; simpl;
    rewrite ?Hr; try lia.
  rewrite iter_pos_iter, iter_shr_m, Hr by (rewrite Hr; lia).
  apply Z.div_pos; lia.
Qed.

Lemma round_nearest_even_nonneg (m : Z) (l : location) :
  0 <= m -> 0 <= round_nearest_even m l.
Proof.
  intros H. destruct l as [|[| |]]; simpl; try lia.
  destruct (Z.even m); lia.
Qed.

(** Rounding a mantissa that is not negative gives zero, a finite double
    or infinity, of the sign asked for. *)
Lemma binary_round_aux_sign (s : bool) (m e : Z) (l : location) :
  0 <= m ->
  match binary_round_aux prec emax s m e l with
  | S754_zero s' | S754_infinity s' | S754_finite s' _ _ => s' = s
  | S754_nan => False
  end.
Proof.
  intros Hm. unfold binary_round_aux.
  pose proof (shr_fexp_nonneg m e l Hm) as H1.
  destruct (shr_fexp prec emax m e l) as [mrs' e']. simpl in H1.
  pose proof (round_nearest_even_nonneg _ (loc_of_shr_record mrs') H1) as H2.
  pose proof (shr_fexp_nonneg _ e' loc_Exact H2) as H3.
  destruct (shr_fexp prec emax
              (round_nearest_even (shr_m mrs') (loc_of_shr_record mrs')) e' loc_Exact)
    as [mrs'' e'']. simpl in H3.
  destruct (shr_m mrs'') as [|r|r]; try lia; [reflexivity|].
  destruct (e'' <=? emax - prec); reflexivity.
Qed.

Lemma binary_round_sign (s : bool) (m : positive) (e : Z) :
  match binary_round prec emax s m e with
  | S754_zero s' | S754_infinity s' | S754_finite s' _ _ => s' = s
  | S754_nan => False
  end.
Proof.
  unfold binary_round.
  destruct (shl_align m e (fexp prec emax (Zpos (digits2_pos m) + e))) as [mz ez].
  apply binary_round_aux_sign. lia.
Qed.

Lemma binary_round_nonneg (m : positive) (e : Z) :
  SF_nonneg (binary_round prec emax false m e) = true.
Proof.
  pose proof (binary_round_sign false m e) as H.
  destruct (binary_round prec emax false m e) as [s|s| |s m' e'];
    try contradiction; subst; reflexivity.
Qed.

Lemma binary_normalize_nonneg (m e : Z) :
  0 <= m -> SF_nonneg (binary_normalize prec emax m e false) = true.
Proof.
  intros H. destruct m as [|p|p]; try lia; simpl; [reflexivity|].
  apply binary_round_nonneg.
Qed.

Lemma SF2Prim_nonneg (x : spec_float) :
  SF_nonneg x = true -> nonneg (SF2Prim x).
Proof.
  unfold nonneg. destruct x as [[|]|[|]| |[|] m e]; try discriminate; intros _;
    try reflexivity.
  unfold SF2Prim. rewrite Z_ldexp_spec, of_uint63_spec.
  pose proof (Uint63.to_Z_bounded (Uint63.of_Z (Zpos m))) as [Hn _].
  pose proof (binary_normalize_nonneg _ 0 Hn) as H.
  destruct (binary_normalize prec emax _ 0 false) as [[|]|[|]| |[|] m' e'];
    try discriminate; try reflexivity.
  simpl. apply binary_round_nonneg.
Qed.

Lemma SF64_nonneg (m e : Z) : 0 <= m -> nonneg (SF64 m e).
Proof.
  intros H. apply SF2Prim_nonneg, binary_normalize_nonneg, H.
Qed.

(** The product of a double at or above zero and a positive constant. *)
Lemma mul_nonneg (x y : float) (m : positive) (e : Z) :
  nonneg x -> Prim2SF y = S754_finite false m e -> nonneg (x * y)%float.
Proof.
  unfold nonneg. intros Hx Hy. rewrite mul_spec, Hy.
  destruct (Prim2SF x) as [[|]|[|]| |[|] mx ex]; try discriminate; try reflexivity.
  simpl. pose proof (binary_round_aux_sign false (Zpos (mx * m)) (ex + e) loc_Exact) as H.
  destruct (binary_round_aux prec emax false (Zpos (mx * m)) (ex + e) loc_Exact)
    as [s|s| |s m' e']; try (destruct H; lia); rewrite H by lia; reflexivity.
Qed.

Lemma add_nonneg (x y : float) : nonneg x -> nonneg y -> nonneg (x + y)%float.
Proof.
  unfold nonneg. intros Hx Hy. rewrite add_spec.
  destruct (Prim2SF x) as [[|]|[|]| |[|] mx ex]; try discriminate;
  destruct (Prim2SF y) as [[|]|[|]| |[|] my ey]; try discriminate; try reflexivity.
  unfold SF64add, SFadd. apply binary_normalize_nonneg. simpl. lia.
Qed.

Lemma nonneg_leb (x : float) : nonneg x -> (0 <=? x)%float = true.
Proof.
  unfold nonneg. intros H. rewrite leb_spec.
  change (Prim2SF 0) with (S754_zero false).
  destruct (Prim2SF x) as [[|]|[|]| |[|] m e]; try discriminate; reflexivity.
Qed.

Lemma leb_not_nan (x : float) : (0 <=? x)%float = true -> isNaN x = false.
Proof.
  intros H. destruct (isNaN x) eqn:E; [|reflexivity].
  rewrite leb_spec, (isNaN_true x E) in H. discriminate.
Qed.
End Nonneg.

(** ** Texts of digits read as numbers *)

Lemma is_digit_cases (c : N) :
  is_digit c = true ->
  (c = 48 \/ c = 49 \/ c = 50 \/ c = 51 \/ c = 52 \/ c = 53 \/ c = 54 \/ c = 55
   \/ c = 56 \/ c = 57)%N.
Proof.
  unfold is_digit. rewrite andb_true_iff, !N.leb_le. lia.
Qed.

Ltac digit_cases c H :=
  let E := fresh "E" in
  pose proof (is_digit_cases _ H) as E; clear H;
  repeat (destruct E as [E|E]); subst c.

Lemma trimStart_digits (s : ustring) :
  Forall (fun c => is_digit c = true) s -> trimStart s = s.
Proof.
  destruct 1 as [|c s Hc Hs]; [reflexivity|].
  digit_cases c Hc; reflexivity.
Qed.

Lemma trim_digits (s : ustring) :
  Forall (fun c => is_digit c = true) s -> trim s = s.
Proof.
  intros H. unfold trim, trimEnd. rewrite (trimStart_digits s H).
  rewrite trimStart_digits, rev_involutive; [reflexivity|].
  apply Forall_rev, H.
Qed.

Lemma span_digits_digits (s : ustring) :
  Forall (fun c => is_digit c = true) s ->
  span_digits 10 s = (map (fun c => (c - 48)%N) s, []).
Proof.
  induction 1 as [|c s Hc Hs IH]; [reflexivity|].
  simpl. rewrite IH. digit_cases c Hc; reflexivity.
Qed.

Lemma decimal_to_float_nonneg (m : N) (e : Z) :
  nonneg (decimal_to_float false m e).
Proof.
  unfold decimal_to_float, signed.
  destruct (m =? 0)%N; [reflexivity|].
  destruct (310 <? _)%Z; [reflexivity|].
  destruct (_ <? -330)%Z; [reflexivity|].
  destruct (0 <=? e)%Z eqn:Ee.
  - apply SF64_nonneg. apply Z.leb_le in Ee.
    apply Z.mul_nonneg_nonneg; [lia|]. apply Z.pow_nonneg. lia.
  - apply Z.leb_gt in Ee.
    assert (Hq : (0 < 10 ^ (- e))%Z) by (apply Z.pow_pos_nonneg; lia).
    assert (Hn : (0 <= Z.of_N m * 2 ^ Z.max 0 (64 + Z.log2 (10 ^ (- e))
                                               - Z.log2 (Z.of_N m)) / 10 ^ (- e))%Z).
    { apply Z.div_pos; [|exact Hq].
      apply Z.mul_nonneg_nonneg; [lia|]. apply Z.pow_nonneg. lia. }
    destruct (_ =? 0)%Z; apply SF64_nonneg; lia.
Qed.

Lemma StrDecimalLiteral_digits (s : ustring) :
  digit_string s -> nonneg (StrDecimalLiteral s).
Proof.
  intros [Hne Hs]. unfold StrDecimalLiteral.
  destruct s as [|c s]; [contradiction|].
  assert (E : strip_sign (c :: s) = (false, c :: s)
              /\ ueqb (c :: s) (u "Infinity") = false).
  { inversion Hs as [|? ? Hc _]; subst. digit_cases c Hc; split; reflexivity. }
  destruct E as [-> E]. rewrite E, (span_digits_digits _ Hs), app_nil_r.
  simpl map. cbv iota beta. simpl exponent_part. cbv iota beta.
  apply decimal_to_float_nonneg.
Qed.

(** [Number(s)] for a text of digits is a number at or above zero. *)
Lemma StringToNumber_digits (s : ustring) :
  digit_string s -> nonneg (StringToNumber s).
Proof.
  intros H. pose proof H as [Hne Hs]. unfold StringToNumber.
  rewrite (trim_digits s Hs).
  destruct s as [|c [|c2 s]]; [contradiction| |].
  - inversion Hs as [|? ? Hc _]; subst.
    digit_cases c Hc; apply (StrDecimalLiteral_digits _ H).
  - inversion Hs as [|? ? Hc Hs']; subst.
    inversion Hs' as [|? ? Hc2 _]; subst.
    digit_cases c Hc; try apply (StrDecimalLiteral_digits _ H).
    digit_cases c2 Hc2; apply (StrDecimalLiteral_digits _ H).
Qed.

(** ** What the groups of a pattern capture *)

Section Classes.
Import RegExp.
Variable rt : Runtime.
Variable fl : flags.
Hypothesis Hcase : ignoreCase fl = false \/ ascii_case rt.

Lemma latin_upper_digit (c : N) :
  is_digit (latin_upper c) = true -> is_digit c = true.
Proof.
  unfold latin_upper, is_digit.
  destruct ((97 <=? c) && (c <=? 122))%N eqn:E; [|exact (fun H => H)].
  apply andb_true_iff in E. rewrite !N.leb_le in E.
  rewrite andb_true_iff, !N.leb_le. lia.
Qed.

Lemma latin_upper_letter (c : N) :
  is_upper (latin_upper c) = true -> is_letter c = true.
Proof.
  unfold latin_upper, is_letter.
  destruct ((97 <=? c) && (c <=? 122))%N eqn:E.
  - intros _. apply orb_true_r.
  - intros ->. reflexivity.
Qed.

(** The canonical form of a unit stays on its side of the Basic Latin
    block, and inside the block it is the upper-case letter. *)
Lemma canonicalize_ascii (ch : N) :
  ignoreCase fl = true ->
  ((ch < 128)%N /\ canonicalize rt fl ch = latin_upper ch)
  \/ ((128 <= ch)%N /\ (128 <= canonicalize rt fl ch)%N).
Proof.
  intros Ei. unfold canonicalize. rewrite Ei.
  destruct Hcase as [Hc|Hc]; [congruence|].
  destruct (N.ltb_spec ch 128) as [Hlt|Hge].
  - left. split; [exact Hlt|]. rewrite (Hc ch Hlt).
    replace (128 <=? ch)%N with false by (symmetry; apply N.leb_gt, Hlt).
    reflexivity.
  - right. split; [exact Hge|].
    replace (128 <=? ch)%N with true by (symmetry; apply N.leb_le, Hge).
    destruct (toUpperCase rt [ch]) as [|cu [|]]; try exact Hge.
    simpl. destruct (N.ltb_spec cu 128) as [Hcu|Hcu]; assumption.
Qed.

(** Under [i] a unit whose canonical form is a digit is that digit. *)
Lemma canonicalize_digit (ch : N) :
  is_digit (canonicalize rt fl ch) = true -> is_digit ch = true.
Proof.
  case_eq (ignoreCase fl); intros Ei.
  - destruct (canonicalize_ascii ch Ei) as [[_ ->]|[_ H]];
      [apply latin_upper_digit|].
    unfold is_digit. rewrite andb_true_iff, !N.leb_le. lia.
  - unfold canonicalize. rewrite Ei. exact (fun H => H).
Qed.

Lemma canonicalize_letter (ch : N) :
  is_upper (canonicalize rt fl ch) = true ->
  (if ignoreCase fl then is_letter ch else is_upper ch) = true.
Proof.
  case_eq (ignoreCase fl); intros Ei.
  - destruct (canonicalize_ascii ch Ei) as [[_ ->]|[_ H]];
      [apply latin_upper_letter|].
    unfold is_upper. rewrite andb_true_iff, !N.leb_le. lia.
  - unfold canonicalize. rewrite Ei. exact (fun H => H).
Qed.

(** The canonical form of a digit or of a capital letter is itself. *)
Lemma canonicalize_fixed (x : N) :
  (x < 97)%N -> canonicalize rt fl x = x.
Proof.
  intros Hx. case_eq (ignoreCase fl); intros Ei.
  - destruct (canonicalize_ascii x Ei) as [[_ ->]|[H _]]; [|lia].
    unfold latin_upper.
    replace (97 <=? x)%N with false by (symmetry; apply N.leb_gt, Hx).
    reflexivity.
  - unfold canonicalize. rewrite Ei. reflexivity.
Qed.

(** [\d] takes digits only, also under [i]. *)
Lemma class_digit (ch : N) :
  class_has rt fl [ClassDigit] ch = true -> is_digit ch = true.
Proof.
  unfold class_has. simpl existsb. rewrite !orb_false_r.
  fold (is_digit ch). destruct (is_digit ch) eqn:E; [reflexivity|].
  case (ignoreCase fl); [|discriminate].
  intros H.
  assert (Hx : exists x, is_digit x = true
                         /\ canonicalize rt fl x = canonicalize rt fl ch).
  { repeat (apply orb_true_iff in H; destruct H as [H|H]);
      apply N.eqb_eq in H; eexists; (split; [|exact H]); reflexivity. }
  destruct Hx as (x & Hx & Hxc).
  rewrite <- E. apply canonicalize_digit. rewrite <- Hxc.
  rewrite canonicalize_fixed; [exact Hx|].
  unfold is_digit in Hx. apply andb_true_iff in Hx. rewrite !N.leb_le in Hx. lia.
Qed.

Lemma code_units_range (lo hi x : N) :
  In x (code_units lo hi) -> (lo <= x <= hi)%N.
Proof.
  unfold code_units. rewrite in_map_iff. intros (n & <- & Hn).
  apply in_seq in Hn. lia.
Qed.

(** [[A-Z]] takes capital letters, and under [i] small letters too,
    nothing else. *)
Lemma class_upper (ch : N) :
  class_has rt fl [ClassRange 65 90] ch = true ->
  (if ignoreCase fl then is_letter ch else is_upper ch) = true.
Proof.
  unfold class_has. cbn [existsb atom_mem atom_elems]. rewrite !orb_false_r.
  fold (is_upper ch). destruct (is_upper ch) eqn:E.
  { intros _. unfold is_letter. rewrite E. case (ignoreCase fl); reflexivity. }
  case_eq (ignoreCase fl); intros Ei; [|discriminate].
  intros H. apply existsb_exists in H. destruct H as (x & Hx & H).
  apply N.eqb_eq in H. apply code_units_range in Hx.
  pose proof (canonicalize_letter ch) as Hl. rewrite Ei in Hl. apply Hl.
  rewrite <- H, canonicalize_fixed by lia.
  unfold is_upper. rewrite andb_true_iff, !N.leb_le. lia.
Qed.

(** A greedy or lazy run of one-unit tests takes a prefix of units that
    pass the test, at least [min] and at most [max] of them, and goes on
    with the captures it was given. *)
Lemma repeat_one_unit {A} (test : N -> bool) (greedy : bool) :
  forall fuel min max x c (k : cont A) z,
    (forall n, max = Some n -> min <= n) ->
    repeat (one_unit test) fuel min max greedy x c k = Some z ->
    exists w y, x = w ++ y /\ Forall (fun ch => test ch = true) w
                /\ min <= length w /\ (forall n, max = Some n -> length w <= n)
                /\ k y c = Some z.
Proof.
  induction fuel as [|fuel IH]; intros min max x c k z Hmax H; [discriminate|].
  simpl in H.
  assert (Hstop : min = 0 -> k x c = Some z ->
            exists w y, x = w ++ y /\ Forall (fun ch => test ch = true) w
                        /\ min <= length w
                        /\ (forall n, max = Some n -> length w <= n)
                        /\ k y c = Some z).
  { intros -> Hk. exists [], x.
    repeat split; [constructor|apply le_n|intros; apply Nat.le_0_l|exact Hk]. }
  assert (Hgo :
            max <> Some 0 ->
            one_unit test x c (fun y c' =>
               if Nat.eqb min 0 && Nat.eqb (length y) (length x) then None
               else repeat (one_unit test) fuel (pred min) (option_map pred max)
                      greedy y c' k)
            = Some z ->
            exists w y, x = w ++ y /\ Forall (fun ch => test ch = true) w
                        /\ min <= length w
                        /\ (forall n, max = Some n -> length w <= n)
                        /\ k y c = Some z).
  { intros Hne. unfold one_unit at 1. destruct x as [|ch x']; [discriminate|].
    destruct (test ch) eqn:Et; [|discriminate].
    destruct (Nat.eqb min 0 && Nat.eqb (length x') (length (ch :: x')));
      [discriminate|].
    intros Hr. apply IH in Hr.
    - destruct Hr as (w & y & -> & Hw & Hm & Hn & Hk).
      exists (ch :: w), y. repeat split;
        [constructor; assumption | simpl; lia | | exact Hk].
      intros n ->. simpl. specialize (Hn (pred n) eq_refl).
      destruct n; [congruence|]. simpl in Hn. lia.
    - intros n Hn. destruct max as [m|]; [|discriminate].
      injection Hn as <-. specialize (Hmax m eq_refl). lia. }
  destruct max as [[|max']|].
  - apply Hstop; [|exact H]. specialize (Hmax 0 eq_refl). lia.
  - assert (Hne : Some (S max') <> Some 0) by discriminate.
    destruct (Nat.eqb min 0) eqn:Emin; simpl negb in H; cbv iota in H.
    + apply Nat.eqb_eq in Emin. destruct greedy.
      * match type of H with
        | match ?e with _ => _ end = _ => remember e as o eqn:Em in H
        end.
        destruct o as [z'|].
        -- injection H as ->. symmetry in Em. exact (Hgo Hne Em).
        -- exact (Hstop Emin H).
      * remember (k x c) as o eqn:Ek in H. destruct o as [z'|].
        -- injection H as ->. symmetry in Ek. exact (Hstop Emin Ek).
        -- exact (Hgo Hne H).
    + exact (Hgo Hne H).
  - assert (Hne : @None nat <> Some 0) by discriminate.
    destruct (Nat.eqb min 0) eqn:Emin; simpl negb in H; cbv iota in H.
    + apply Nat.eqb_eq in Emin. destruct greedy.
      * match type of H with
        | match ?e with _ => _ end = _ => remember e as o eqn:Em in H
        end.
        destruct o as [z'|].
        -- injection H as ->. symmetry in Em. exact (Hgo Hne Em).
        -- exact (Hstop Emin H).
      * remember (k x c) as o eqn:Ek in H. destruct o as [z'|].
        -- injection H as ->. symmetry in Ek. exact (Hstop Emin Ek).
        -- exact (Hgo Hne H).
    + exact (Hgo Hne H).
Qed.

(** [\d+] takes a text of digits. *)
Lemma plus_digit : takes rt fl (plus digit) digit_string.
Proof.
  intros A x c k z.
  change (rmatch rt fl (plus digit) x c k)
    with (repeat (one_unit (fun ch => xorb false (class_has rt fl [ClassDigit] ch)))
            (1 + length x + 1) 1 None true x c k).
  intros H. apply repeat_one_unit in H; [|discriminate].
  destruct H as (w & y & -> & Hw & Hm & _ & Hk).
  exists w, y. repeat split; [| |exact Hk].
  - intros ->. simpl in Hm. lia.
  - eapply Forall_impl; [|exact Hw]. intros ch Hch. apply class_digit, Hch.
Qed.

(** [[A-Z]{3}] takes three letters, capital ones unless under [i]. *)
Lemma upper3_letters :
  takes rt fl Patterns.upper3
        (three_of (if ignoreCase fl then is_letter else is_upper)).
Proof.
  intros A x c k z.
  change (rmatch rt fl Patterns.upper3 x c k)
    with (repeat (one_unit (fun ch => xorb false (class_has rt fl [ClassRange 65 90] ch)))
            (3 + length x + 1) 3 (Some 3) true x c k).
  intros H. apply repeat_one_unit in H; [|intros n [= <-]; apply le_n].
  destruct H as (w & y & -> & Hw & Hm & Hn & Hk).
  exists w, y. repeat split; [| |exact Hk].
  - specialize (Hn 3 eq_refl). lia.
  - eapply Forall_impl; [|exact Hw]. intros ch Hch.
    pose proof (class_upper ch Hch) as Hu. revert Hu.
    case (ignoreCase fl); exact (fun Hu => Hu).
Qed.
End Classes.

Section Shapes.
Import RegExp.
Variable rt : Runtime.
Variable fl : flags.
Variable D : nat -> bool.
Variable r0 : regex.
Variable P : ustring -> Prop.
Hypothesis Hr0 : takes rt fl r0 P.

Lemma shaped_repeat {A} (m : matcher A) :
  (forall x c k z, m x c k = Some z -> shaped_captures D P c ->
     exists y c', k y c' = Some z /\ shaped_captures D P c') ->
  forall fuel min max greedy x c k z,
    repeat m fuel min max greedy x c k = Some z -> shaped_captures D P c ->
    exists y c', k y c' = Some z /\ shaped_captures D P c'.
Proof.
  intros Hm. induction fuel as [|fuel IH]; intros min max greedy x c k z H Hc;
    [discriminate|].
  simpl in H.
  assert (Hgo :
            m x c (fun y c' =>
               if Nat.eqb min 0 && Nat.eqb (length y) (length x) then None
               else repeat m fuel (pred min) (option_map pred max) greedy y c' k)
            = Some z ->
            exists y c', k y c' = Some z /\ shaped_captures D P c').
  { intros Hgo. apply Hm in Hgo; [|exact Hc]. destruct Hgo as (y & c1 & Hd & Hc1).
    destruct (Nat.eqb min 0 && Nat.eqb (length y) (length x)); [discriminate|].
    exact (IH _ _ _ _ _ _ _ Hd Hc1). }
  assert (Hrest :
            (if negb (Nat.eqb min 0)
             then m x c (fun y c' =>
                    if Nat.eqb min 0 && Nat.eqb (length y) (length x) then None
                    else repeat m fuel (pred min) (option_map pred max) greedy y c' k)
             else if greedy
                  then match m x c (fun y c' =>
                           if Nat.eqb min 0 && Nat.eqb (length y) (length x) then None
                           else repeat m fuel (pred min) (option_map pred max)
                                  greedy y c' k) with
                       | Some z => Some z
                       | None => k x c
                       end
                  else match k x c with
                       | Some z => Some z
                       | None => m x c (fun y c' =>
                           if Nat.eqb min 0 && Nat.eqb (length y) (length x) then None
                           else repeat m fuel (pred min) (option_map pred max)
                                  greedy y c' k)
                       end) = Some z ->
            exists y c', k y c' = Some z /\ shaped_captures D P c').
  { destruct (negb (Nat.eqb min 0)); [exact Hgo|]. destruct greedy.
    - intros H'.
      match type of H' with
      | match ?e with _ => _ end = _ => remember e as o eqn:Em in H'
      end.
      destruct o as [z'|].
      + injection H' as ->. symmetry in Em. exact (Hgo Em).
      + eauto.
    - intros H'. remember (k x c) as o eqn:Ek in H'. destruct o as [z'|].
      + injection H' as ->. symmetry in Ek. eauto.
      + exact (Hgo H'). }
  destruct max as [[|max']|]; [eauto | exact (Hrest H) | exact (Hrest H)].
Qed.

(** A match leaves every group of [D] holding a text of the shape when
    each is written [(r0)]. *)
Lemma shaped_rmatch {A} (r : regex) :
  shaped_groups D r0 r ->
  forall x c (k : cont A) z,
    rmatch rt fl r x c k = Some z -> shaped_captures D P c ->
    exists y c', k y c' = Some z /\ shaped_captures D P c'.
Proof.
  induction r as [|p| |invert atoms|r1 IH1 r2 IH2|g r1 IH1|min max greedy r1 IH1];
    simpl; intros Hr x c k z H Hc.
  - eauto.
  - unfold one_unit in H. destruct x as [|ch x']; [discriminate|].
    destruct (_ =? _)%N; [eauto|discriminate].
  - unfold one_unit in H. destruct x as [|ch x']; [discriminate|].
    destruct (_ || _); [eauto|discriminate].
  - unfold one_unit in H. destruct x as [|ch x']; [discriminate|].
    destruct (xorb _ _); [eauto|discriminate].
  - destruct Hr as [Hr1 Hr2].
    destruct (IH1 Hr1 _ _ _ _ H Hc) as (y1 & c1 & H1 & Hc1).
    exact (IH2 Hr2 _ _ _ _ H1 Hc1).
  - destruct (D g) eqn:Dg.
    + subst r1. apply Hr0 in H. destruct H as (w & y & -> & Hw & Hk).
      eexists y, _. split; [exact Hk|].
      rewrite length_app, Nat.add_sub, firstn_app, Nat.sub_diag, firstn_all.
      simpl. rewrite app_nil_r.
      intros n s Dn [E|Hin]; [injection E as _ <-; exact Hw|exact (Hc n s Dn Hin)].
    + destruct (IH1 Hr _ _ _ _ H Hc) as (y & c1 & Hk & Hc1).
      eexists y, _. split; [exact Hk|].
      intros n s Dn [E|Hin]; [injection E as <- _; congruence|exact (Hc1 n s Dn Hin)].
  - exact (shaped_repeat (rmatch rt fl r1) (IH1 Hr) _ _ _ _ _ _ _ _ H Hc).
Qed.

Lemma capture_In (c : captures) (n : nat) (s : ustring) :
  capture c n = Some s -> In (n, s) c.
Proof.
  induction c as [|[m s'] c IH]; simpl; [discriminate|].
  destruct (Nat.eqb m n) eqn:E.
  - apply Nat.eqb_eq in E. intros [= ->]. left. congruence.
  - intros H. right. exact (IH H).
Qed.

Lemma search_shaped (r : regex) :
  shaped_groups D r0 r ->
  forall x pos m, search rt fl r x pos = Some m -> shaped_captures D P (m_groups m).
Proof.
  intros Hr.
  assert (Hm : forall x y c, match_here rt fl r x = Some (y, c) -> shaped_captures D P c).
  { intros x y c E. unfold match_here in E.
    apply (shaped_rmatch r Hr) in E; [|intros n s _ []].
    destruct E as (y' & c' & E & Hc). injection E as -> ->. exact Hc. }
  induction x as [|ch x IH]; intros pos m H; simpl in H.
  - destruct (match_here rt fl r []) as [[y c]|] eqn:E; [|discriminate].
    injection H as <-. exact (Hm _ _ _ E).
  - destruct (match_here rt fl r (ch :: x)) as [[y c]|] eqn:E.
    + injection H as <-. exact (Hm _ _ _ E).
    + exact (IH _ _ H).
Qed.

Lemma matchAll_shaped (r : regex) :
  shaped_groups D r0 r ->
  forall x m, In m (matchAll rt fl r x) -> shaped_captures D P (m_groups m).
Proof.
  intros Hr x. unfold matchAll. generalize (S (length x)) as fuel.
  intros fuel. revert x. induction fuel as [|fuel IH]; intros x m H; simpl in H.
  - contradiction.
  - destruct (exec rt fl r x) as [m0|] eqn:E; [|contradiction].
    destruct H as [<-|H].
    + exact (search_shaped r Hr _ _ _ E).
    + destruct (resume m0) as [y|]; [exact (IH _ _ H)|contradiction].
Qed.

(** A group of [D] that takes part in every match reads as a text of
    the shape. *)
Lemma group_shaped (r : regex) (n : nat) :
  shaped_groups D r0 r -> D n = true -> defines r n = true ->
  forall x m, In m (matchAll rt fl r x) ->
    exists s, group m n = VStr s /\ P s.
Proof.
  intros Hr Dn Hn x m Hm.
  destruct (matchAll_defines rt fl r n Hn x m Hm) as [s Hs].
  exists s. split; [exact Hs|].
  apply (matchAll_shaped r Hr x m Hm n s Dn).
  apply capture_In. unfold group in Hs.
  destruct (capture (m_groups m) n); [congruence|discriminate].
Qed.
End Shapes.

(** ** Teams read from text *)

Lemma mapM_Forall {A B} (f : A -> result B) (P : B -> Prop) (l : list A) :
  (forall x y, In x l -> f x = OK y -> P y) ->
  forall ys, mapM f l = OK ys -> Forall P ys.
Proof.
  induction l as [|x l IH]; intros H ys E; simpl in E.
  - injection E as <-. constructor.
  - destruct (f x) as [y|e] eqn:Ex; [|discriminate].
    destruct (mapM f l) as [ys'|e] eqn:El; [|discriminate].
    injection E as <-. constructor.
    + exact (H x y (or_introl eq_refl) Ex).
    + apply IH; [|reflexivity]. intros x' y' Hin. apply H. right. exact Hin.
Qed.

Lemma sortTeams_Forall (P : Team -> Prop) (l : list Team) :
  Forall P l -> Forall P (sortTeams l).
Proof.
  intros H. rewrite Forall_forall in H |- *. intros z Hz. apply H.
  apply (Permutation_in z (Permutation_sym (Array_sort_Permutation compareTeams l))).
  exact Hz.
Qed.

Lemma counted_numeric (t : Team) : counted t -> numeric t.
Proof.
  unfold counted, numeric. apply Forall_impl. intros x. apply leb_not_nan.
Qed.

(** The score of three counts at or above zero is at or above zero. *)
Lemma score_nonneg (g s b : float) :
  nonneg g -> nonneg s -> nonneg b -> nonneg (g * 3 + s * 1.5 + b * 1)%float.
Proof.
  intros Hg Hs Hb.
  repeat apply add_nonneg; eapply mul_nonneg; try eassumption;
    vm_compute; reflexivity.
Qed.

(** A record whose counts are texts of digits, and whose total is one or
    is left out, normalizes to counts at or above zero. *)
Lemma withScore_counted (entry : RawRecord) (t : Team) (sg ss sb : ustring) :
  r_gold entry = VStr sg -> digit_string sg ->
  r_silver entry = VStr ss -> digit_string ss ->
  r_bronze entry = VStr sb -> digit_string sb ->
  (r_total entry = None
   \/ exists st, r_total entry = Some (VStr st) /\ digit_string st) ->
  withScore entry = OK t -> counted t.
Proof.
  intros Eg Hg Es Hs Eb Hb Ht H.
  apply withScore_OK in H. destruct H as (g & s & b & tt & Ng & Ns & Nb & Nt & ->).
  rewrite Eg in Ng. rewrite Es in Ns. rewrite Eb in Nb.
  injection Ng as <-. injection Ns as <-. injection Nb as <-.
  apply StringToNumber_digits in Hg, Hs, Hb.
  assert (Htt : nonneg tt).
  { unfold entry_total in Nt. destruct Ht as [Et|(st & Et & Hst)]; rewrite Et in Nt.
    - simpl in Nt. injection Nt as <-. repeat apply add_nonneg; assumption.
    - destruct st as [|c st]; [destruct Hst as [[] _]; reflexivity|].
      simpl in Nt. injection Nt as <-. apply StringToNumber_digits, Hst. }
  unfold counted, keys. simpl.
  repeat constructor; apply nonneg_leb; try assumption.
  apply score_nonneg; assumption.
Qed.

Lemma ascii_case_basic : ascii_case basic_runtime.
Proof.
  intros c _. reflexivity.
Qed.

Section Counts.
Import RegExp Patterns.
Variable rt : Runtime.
Hypothesis Hcase : ascii_case rt.

Lemma wikiRow_digit_groups :
  shaped_groups (groups_from 2 5) (plus digit) wikiRow_rx.
Proof.
  vm_compute. repeat split.
Qed.

Lemma rx_digit_groups : shaped_groups (groups_from 3 6) (plus digit) rx.
Proof.
  vm_compute. repeat split.
Qed.

Lemma rowRx_digit_groups : shaped_groups (groups_from 3 5) (plus digit) rowRx.
Proof.
  vm_compute. repeat split.
Qed.

Lemma wikiTeam_counted (x : ustring) (m : rmatch_result) (t : Team) :
  In m (matchAll rt wikiRow_flags wikiRow_rx x) -> wikiTeam rt m = OK t -> counted t.
Proof.
  intros Hm H. unfold wikiTeam in H. bind_inv H.
  pose proof (fun n Dn Hn =>
    group_shaped rt wikiRow_flags (groups_from 2 5) (plus digit) digit_string
      (plus_digit rt wikiRow_flags (or_intror Hcase)) wikiRow_rx n
      wikiRow_digit_groups Dn Hn x m Hm) as G.
  destruct (G 2 eq_refl eq_refl) as (sg & Eg & Hg).
  destruct (G 3 eq_refl eq_refl) as (ss & Es & Hs).
  destruct (G 4 eq_refl eq_refl) as (sb & Eb & Hb).
  destruct (G 5 eq_refl eq_refl) as (st & Et & Ht).
  apply (withScore_counted _ t sg ss sb) in H; simpl; try assumption.
  right. exists st. rewrite Et. split; [reflexivity|exact Ht].
Qed.

Lemma inlineTeam_counted (x : ustring) (m : rmatch_result) (t : Team) :
  In m (matchAll rt rx_flags rx x) -> inlineTeam m = OK t -> counted t.
Proof.
  intros Hm H. unfold inlineTeam in H. bind_inv H.
  pose proof (fun n Dn Hn =>
    group_shaped rt rx_flags (groups_from 3 6) (plus digit) digit_string
      (plus_digit rt rx_flags (or_introl eq_refl)) rx n
      rx_digit_groups Dn Hn x m Hm) as G.
  destruct (G 3 eq_refl eq_refl) as (sg & Eg & Hg).
  destruct (G 4 eq_refl eq_refl) as (ss & Es & Hs).
  destruct (G 5 eq_refl eq_refl) as (sb & Eb & Hb).
  destruct (G 6 eq_refl eq_refl) as (st & Et & Ht).
  apply (withScore_counted _ t sg ss sb) in H; simpl; try assumption.
  right. exists st. rewrite Et. split; [reflexivity|exact Ht].
Qed.

Lemma tableRowTeam_counted (x : ustring) (m : rmatch_result) (t : Team) :
  In m (matchAll rt rowRx_flags rowRx x) -> tableRowTeam m = OK t -> counted t.
Proof.
  intros Hm H. unfold tableRowTeam in H. bind_inv H.
  pose proof (fun n Dn Hn =>
    group_shaped rt rowRx_flags (groups_from 3 5) (plus digit) digit_string
      (plus_digit rt rowRx_flags (or_intror Hcase)) rowRx n
      rowRx_digit_groups Dn Hn x m Hm) as G.
  destruct (G 3 eq_refl eq_refl) as (sg & Eg & Hg).
  destruct (G 4 eq_refl eq_refl) as (ss & Es & Hs).
  destruct (G 5 eq_refl eq_refl) as (sb & Eb & Hb).
  apply (withScore_counted _ t sg ss sb) in H; simpl; try assumption.
  left. reflexivity.
Qed.

Lemma sorted_counts (l : list Team) :
  Forall counted l ->
  Forall counted (sortTeams l) /\ non_increasing (sortTeams l).
Proof.
  intros H. split; [apply sortTeams_Forall, H|].
  apply sortTeams_non_increasing. eapply Forall_impl; [|exact H].
  exact counted_numeric.
Qed.
End Counts.

Lemma parseWikipedia_scraped (rt : Runtime) (html : ustring) (ts : list Team) :
  ascii_case rt ->
  parseWikipedia rt html = OK ts ->
  Forall counted ts /\ non_increasing ts.
Proof.
  intros Hcase H. unfold parseWikipedia in H.
  destruct (RegExp.exec rt Patterns.tableMatch_flags Patterns.tableMatch_rx html)
    as [m|].
  - bind_inv H. bind_inv H. injection H as <-.
    apply sorted_counts.
    refine (mapM_Forall (wikiTeam rt) counted _ _ x0 E0).
    intros m' t Hm' Ht. exact (wikiTeam_counted rt Hcase x m' t Hm' Ht).
  - injection H as <-. split; constructor.
Qed.

Lemma parseFromHtml_scraped (rt : Runtime) (html : ustring) (ts : list Team) :
  ascii_case rt ->
  embeddedTeams rt html = OK None ->
  parseFromHtml rt html = OK ts ->
  Forall counted ts /\ non_increasing ts.
Proof.
  intros Hcase He H. unfold parseFromHtml in H. rewrite He in H. simpl in H.
  bind_inv H. bind_inv H. injection H as <-.
  apply sorted_counts.
  assert (H1 : Forall counted x).
  { refine (mapM_Forall inlineTeam counted _ _ x E).
    intros m t Hm Ht. exact (inlineTeam_counted rt html m t Hm Ht). }
  destruct x as [|t0 x].
  - refine (mapM_Forall tableRowTeam counted _ _ x0 E0).
    intros m t Hm Ht. exact (tableRowTeam_counted rt Hcase html m t Hm Ht).
  - injection E0 as <-. exact H1.
Qed.

(** X10. Every team [parseWikipedia] returns has counts read from runs of
    digits: its score, gold, silver, bronze and total are numbers at or
    above zero, none of them NaN, and the list is in descending rank
    order (no team ranks below a later one). Upper-casing is taken to act
    on Basic Latin as Unicode has it, since the row pattern ignores
    case. *)
Theorem parseWikipedia_counts (rt : Runtime) (html : ustring) (ts : list Team) :
  ascii_case rt ->
  parseWikipedia rt html = OK ts ->
  Forall counted ts /\ non_increasing ts.
Proof.
  exact (parseWikipedia_scraped rt html ts).
Qed.

Lemma parseWikipedia_counts_witness :
  Forall counted [norway_team 53.5] /\ non_increasing [norway_team 53.5].
Proof.
  apply (parseWikipedia_counts basic_runtime wiki_page).
  - intros c _. reflexivity.
  - vm_compute. reflexivity.
Defined.

(** X11. When the page embeds no usable standings, every team
    [parseFromHtml] returns comes from the inline rows or from the table
    rows: its score, gold, silver, bronze and total are numbers at or
    above zero, none of them NaN, and the list is in descending rank
    order. *)
Theorem parseFromHtml_counts (rt : Runtime) (html : ustring) (ts : list Team) :
  ascii_case rt ->
  embeddedTeams rt html = OK None ->
  parseFromHtml rt html = OK ts ->
  Forall counted ts /\ non_increasing ts.
Proof.
  exact (parseFromHtml_scraped rt html ts).
Qed.

Lemma parseFromHtml_counts_witness :
  Forall counted [norway_team 53.5] /\ non_increasing [norway_team 53.5].
Proof.
  apply (parseFromHtml_counts basic_runtime inline_page).
  - intros c _. reflexivity.
  - vm_compute. reflexivity.
  - vm_compute. reflexivity.
Defined.

(** X12. When the page embeds no usable standings and has no inline row,
    the teams of [parseFromHtml] come from the table rows, whose records
    carry no total: the total of each is the sum of its gold, silver and
    bronze. *)
Theorem parseFromHtml_table_totals (rt : Runtime) (html : ustring)
    (ts : list Team) :
  embeddedTeams rt html = OK None ->
  RegExp.matchAll rt Patterns.rx_flags Patterns.rx html = [] ->
  parseFromHtml rt html = OK ts ->
  Forall (fun t => total t = Some (gold t + silver t + bronze t)%float) ts.
Proof.
  intros He Hi H. unfold parseFromHtml in H. rewrite He, Hi in H. simpl in H.
  bind_inv H. injection H as <-.
  apply sortTeams_Forall.
  refine (mapM_Forall tableRowTeam _ _ _ x E).
  intros m t _ Ht. unfold tableRowTeam in Ht. bind_inv Ht.
  apply withScore_OK in Ht.
  destruct Ht as (g & s & b & tt & _ & _ & _ & Nt & ->).
  simpl in Nt. injection Nt as <-. reflexivity.
Qed.

Lemma parseFromHtml_table_totals_witness :
  Forall (fun t => total t = Some (gold t + silver t + bronze t)%float)
         [norway_team 53.5].
Proof.
  apply (parseFromHtml_table_totals basic_runtime table_page).
  - vm_compute. reflexivity.
  - vm_compute. reflexivity.
  - vm_compute. reflexivity.
Defined.

(** X13. When the API tier fails and [fetchMedals] still resolves, its
    teams either are the standings embedded in the primary page, or were
    read from runs of digits in one of the two pages: then every score,
    gold, silver, bronze and total is a number at or above zero and the
    teams are in descending rank order. *)
Theorem fetchMedals_scraped_counts (rt : Runtime) (W : World)
    (env : ustring -> option ustring) (tr : trace) (e : exn) (ts : list Team) :
  ascii_case rt ->
  fst (fetchApiJson rt W env tr) = Err e ->
  fst (fetchMedals rt W env tr) = OK ts ->
  (Forall counted ts /\ non_increasing ts) \/
  (exists html,
      fst (httpGetText W (PAGE_URL env) page_headers
             (snd (fetchApiJson rt W env tr))) = OK html /\
      embeddedTeams rt html = OK (Some ts)).
Proof.
  intros Hcase Hapi. rewrite fetchMedals_tree.
  destruct (fetchApiJson rt W env tr) as [[ts0|e0] tr1]; simpl in *; [discriminate|].
  destruct (httpGetText W (PAGE_URL env) page_headers tr1) as [[html|e2] tr2];
    simpl; [|discriminate].
  destruct (parseFromHtml rt html) as [[|t l1]|e'] eqn:Ep; simpl; [| |discriminate].
  - destruct (httpGetText W (WIKI_URL env) page_headers tr2) as [[wh|e3] tr3];
      simpl; [|discriminate].
    destruct (parseWikipedia rt wh) as [[|t l1]|e'] eqn:Ew; simpl; try discriminate.
    intros [= <-]. left. exact (parseWikipedia_scraped rt wh _ Hcase Ew).
  - intros [= <-].
    destruct (embeddedTeams rt html) as [[l|]|e'] eqn:Ee.
    + right. exists html. split; [reflexivity|].
      unfold parseFromHtml in Ep. rewrite Ee in Ep. simpl in Ep.
      injection Ep as ->. exact Ee.
    + left. exact (parseFromHtml_scraped rt html _ Hcase Ee Ep).
    + unfold parseFromHtml in Ep. rewrite Ee in Ep. discriminate.
Qed.

Lemma fetchMedals_scraped_counts_witness :
  (Forall counted [norway_team 53.5] /\ non_increasing [norway_team 53.5]) \/
  (exists html,
      fst (httpGetText (serving (Err SyntaxError) (OK inline_page))
             (PAGE_URL no_env) page_headers
             (snd (fetchApiJson basic_runtime
                     (serving (Err SyntaxError) (OK inline_page)) no_env [])))
      = OK html /\
      embeddedTeams basic_runtime html = OK (Some [norway_team 53.5])).
Proof.
  apply (fetchMedals_scraped_counts basic_runtime
           (serving (Err SyntaxError) (OK inline_page)) no_env [] SyntaxError).
  - intros c _. reflexivity.
  - vm_compute. reflexivity.
  - vm_compute. reflexivity.
Defined.

(** ** Rows of the API *)

(** X14. A row whose [cells] is missing or falsy is not dropped and does
    not throw: the callback of [rows.map] turns it into a Team with an
    empty code, an empty name and NaN for gold, silver, bronze, total and
    score. *)
Theorem rowToTeam_blank (rt : Runtime) (row v : val) :
  get row k_cells = OK v -> truthy v = false ->
  rowToTeam rt row = OK blank_team.
Proof.
  intros Hg Hv. unfold rowToTeam, or_empty_array. rewrite Hg. simpl.
  rewrite Hv. reflexivity.
Qed.

Lemma rowToTeam_blank_witness :
  rowToTeam basic_runtime (VObj []) = OK blank_team.
Proof.
  apply (rowToTeam_blank basic_runtime (VObj []) VUndef); reflexivity.
Defined.


(** ** The comparator *)

(** X15. On Teams whose keys are numbers other than NaN the comparator of
    [sortTeams] is positive exactly when its first argument ranks below
    its second in the order of score, gold, silver, bronze, total: no
    difference of two distinct doubles rounds to zero or to the other
    sign. For all Teams, it is never positive both ways round. *)
Theorem compareTeams_sign (a b : Team) :
  (numeric a -> numeric b ->
   (0 <? compareTeams a b)%float = ranks_below a b) /\
  ((0 <? compareTeams a b)%float = true ->
   (0 <? compareTeams b a)%float = false).
Proof.
  split.
  - apply compareTeams_gt0.
  - apply compareTeams_antisym.
Qed.

Lemma compareTeams_sign_witness :
  (0 <? compareTeams team_A team_C)%float = ranks_below team_A team_C.
Proof.
  apply (proj1 (compareTeams_sign team_A team_C));
    repeat constructor.
Defined.

(** ** What the API tier rejects with *)

Lemma ToStringForm_TypeError :
  forall v e, ToStringForm v = Err e -> e = TypeError.
Proof.
  fix ToStringForm_TypeError 1. intros v.
  destruct v as [| |[|]|x|s|elems|props]; intros e H; try discriminate H.
  - assert (Helem : forall v0, In v0 elems -> forall e0,
              match v0 with
              | VUndef | VNull => OK (SExact [])
              | _ => ToStringForm v0
              end = Err e0 -> e0 = TypeError).
    { clear e H. induction elems as [|v1 elems IH]; intros v0 Hin e0 H0; [contradiction|].
      destruct Hin as [<-|Hin].
      - apply (ToStringForm_TypeError v1).
        destruct v1; try discriminate H0; exact H0.
      - exact (IH v0 Hin e0 H0). }
    simpl in H. destruct elems as [|v1 [|v2 l]]; [discriminate| |].
    + exact (Helem v1 (or_introl eq_refl) e H).
    + assert (Hjoin : forall l0,
                (forall v0, In v0 l0 -> In v0 (v1 :: v2 :: l)) ->
                forall e0,
                (fix join (l : list val) : result strform :=
                   match l with
                   | [] => OK SComma
                   | e :: l' =>
                       match
                         match e with
                         | VUndef | VNull => OK (SExact [])
                         | _ => ToStringForm e
                         end
                       with
                       | OK _ => join l'
                       | Err x => Err x
                       end
                   end) l0 = Err e0 -> e0 = TypeError).
      { induction l0 as [|v0 l0 IH]; intros Hin e0 H0; [discriminate|].
        destruct (match v0 with
                  | VUndef | VNull => OK (SExact [])
                  | _ => ToStringForm v0
                  end) as [f|x] eqn:E0.
        - apply IH; [|exact H0]. intros v' Hv'. apply Hin. right. exact Hv'.
        - injection H0 as <-. exact (Helem v0 (Hin v0 (or_introl eq_refl)) x E0). }
      exact (Hjoin (v1 :: v2 :: l) (fun _ Hv => Hv) e H).
  - simpl in H. destruct (own_property props k_toString); [|discriminate].
    injection H as <-. reflexivity.
Qed.

Lemma bind_Err {A B} (r : result A) (f : A -> result B) (e : exn) :
  bind r f = Err e -> r = Err e \/ exists a, r = OK a /\ f a = Err e.
Proof.
  destruct r as [a|e']; simpl; intros H; [eauto|left; injection H as ->; reflexivity].
Qed.

Lemma Number_TypeError (v : val) (e : exn) : Number v = Err e -> e = TypeError.
Proof.
  assert (H : forall w,
            match ToStringForm w with
            | OK f => OK (form_to_number f)
            | Err e => Err e
            end = Err e -> e = TypeError).
  { intros w. destruct (ToStringForm w) as [f|e'] eqn:E; [discriminate|].
    intros [= <-]. exact (ToStringForm_TypeError _ _ E). }
  destruct v as [| |[|]|x|s|elems|props]; try discriminate.
  - exact (H (VArr elems)).
  - exact (H (VObj props)).
Qed.

Lemma withScore_TypeError (entry : RawRecord) (e : exn) :
  withScore entry = Err e -> e = TypeError.
Proof.
  unfold withScore. intros H.
  apply bind_Err in H. destruct H as [H|(g & _ & H)]; [exact (Number_TypeError _ _ H)|].
  apply bind_Err in H. destruct H as [H|(s & _ & H)]; [exact (Number_TypeError _ _ H)|].
  apply bind_Err in H. destruct H as [H|(b & _ & H)]; [exact (Number_TypeError _ _ H)|].
  apply bind_Err in H. destruct H as [H|(t & _ & H)]; [|discriminate].
  destruct (truthy (entry_total entry)); [exact (Number_TypeError _ _ H)|discriminate].
Qed.

Lemma get_TypeError (v : val) (k : ustring) (e : exn) :
  get v k = Err e -> e = TypeError.
Proof.
  destruct v; simpl; intros H; try discriminate; injection H as <-; reflexivity.
Qed.

Lemma rowToTeam_TypeError (rt : Runtime) (row : val) (e : exn) :
  rowToTeam rt row = Err e -> e = TypeError.
Proof.
  unfold rowToTeam. intros H.
  apply bind_Err in H. destruct H as [H|(cells & _ & H)]; [exact (get_TypeError _ _ _ H)|].
  apply bind_Err in H. destruct H as [H|(items & _ & H)].
  { destruct (or_empty_array cells); simpl in H; try discriminate;
      injection H as <-; reflexivity. }
  apply bind_Err in H. destruct H as [H|(nm & _ & H)].
  { destruct (typeof_object (nth 0 items VUndef)); [exact (get_TypeError _ _ _ H)|discriminate]. }
  apply bind_Err in H. destruct H as [H|(cd & _ & H)].
  { destruct (truthy nm); [|discriminate].
    destruct nm; simpl in H; try discriminate; injection H as <-; reflexivity. }
  exact (withScore_TypeError _ _ H).
Qed.

Lemma mapM_Err {A B} (f : A -> result B) (l : list A) (e : exn) :
  mapM f l = Err e -> exists x, In x l /\ f x = Err e.
Proof.
  induction l as [|x l IH]; simpl; [discriminate|].
  destruct (f x) as [y|e'] eqn:E.
  - destruct (mapM f l) as [ys|e'']; [discriminate|].
    intros [= <-]. destruct (IH eq_refl) as (x' & Hin & Hx'). eauto.
  - intros [= <-]. eauto.
Qed.

Lemma standingsTeams_TypeError (rt : Runtime) (standings : val) (e : exn) :
  standingsTeams rt standings = Err e -> e = TypeError.
Proof.
  unfold standingsTeams, opt_chain. intros H.
  apply bind_Err in H. destruct H as [H|(first & _ & H)].
  { destruct (nullish standings); [discriminate|].
    destruct standings as [| | | |[|]| |]; simpl in H; try discriminate;
      injection H as <-; reflexivity. }
  apply bind_Err in H. destruct H as [H|(rows & _ & H)].
  { destruct (nullish first); [discriminate|exact (get_TypeError _ _ _ H)]. }
  apply bind_Err in H. destruct H as [H|(elems & _ & H)].
  { destruct (or_empty_array rows); simpl in H; try discriminate;
      injection H as <-; reflexivity. }
  apply mapM_Err in H. destruct H as (row & _ & H).
  exact (rowToTeam_TypeError _ _ _ H).
Qed.

Lemma apiTeams_rejects (rt : Runtime) (data : val) (e : exn) :
  apiTeams rt data = Err e -> e = TypeError \/ e = no_api_entries.
Proof.
  unfold apiTeams, apiRecords, opt_chain. intros H.
  apply bind_Err in H. destruct H as [H|(teams & _ & H)].
  - left. apply bind_Err in H. destruct H as [H|(st & _ & H)].
    + destruct (nullish data); [discriminate|exact (get_TypeError _ _ _ H)].
    + exact (standingsTeams_TypeError _ _ _ H).
  - right. destruct teams; [|discriminate]. injection H as <-. reflexivity.
Qed.

(** X16. [fetchApiJson] rejects in three ways only: with the error its
    transport [httpGetJson] rejects with, with a TypeError raised while
    reading the rows of the answer, or with the error [API returned no
    medal entries]. *)
Theorem fetchApiJson_rejections (rt : Runtime) (W : World)
    (env : ustring -> option ustring) (tr : trace) (e : exn) :
  fst (fetchApiJson rt W env tr) = Err e ->
  fst (httpGetJson rt W (API_URL env) (api_headers env) tr) = Err e
  \/ e = TypeError \/ e = no_api_entries.
Proof.
  unfold fetchApiJson, bindIO, lift.
  destruct (httpGetJson rt W (API_URL env) (api_headers env) tr) as [[data|e'] tr'];
    simpl; intros H.
  - right. exact (apiTeams_rejects rt data e H).
  - left. injection H as ->. reflexivity.
Qed.

Lemma fetchApiJson_rejections_witness :
  fst (httpGetJson basic_runtime (serving (OK null_row_response) (OK []))
         (API_URL no_env) (api_headers no_env) []) = Err TypeError
  \/ TypeError = TypeError \/ TypeError = no_api_entries.
Proof.
  apply (fetchApiJson_rejections basic_runtime
           (serving (OK null_row_response) (OK [])) no_env []).
  vm_compute. reflexivity.
Defined.

(** ** The codes of scraped teams *)

Section Codes.
Import RegExp Patterns.
Variable rt : Runtime.
Hypothesis Hcase : ascii_case rt.

Lemma rx_code_group : shaped_groups (Nat.eqb 1) upper3 rx.
Proof.
  vm_compute. repeat split.
Qed.

Lemma rowRx_code_group : shaped_groups (Nat.eqb 1) upper3 rowRx.
Proof.
  vm_compute. repeat split.
Qed.

Lemma coded_letter (t : Team) : coded is_upper t -> coded is_letter t.
Proof.
  intros (s & Hs & Hl & Hu). exists s. repeat split; [exact Hs|exact Hl|].
  eapply Forall_impl; [|exact Hu]. intros c Hc. unfold is_letter. rewrite Hc.
  reflexivity.
Qed.

Lemma inlineTeam_coded (x : ustring) (m : rmatch_result) (t : Team) :
  In m (matchAll rt rx_flags rx x) -> inlineTeam m = OK t -> coded is_upper t.
Proof.
  intros Hm H. unfold inlineTeam in H. bind_inv H.
  apply withScore_OK in H. destruct H as (g & s & b & tt & _ & _ & _ & _ & ->).
  exact (group_shaped rt rx_flags (Nat.eqb 1) upper3 _
           (upper3_letters rt rx_flags (or_introl eq_refl)) rx 1
           rx_code_group eq_refl eq_refl x m Hm).
Qed.

Lemma tableRowTeam_coded (x : ustring) (m : rmatch_result) (t : Team) :
  In m (matchAll rt rowRx_flags rowRx x) -> tableRowTeam m = OK t ->
  coded is_letter t.
Proof.
  intros Hm H. unfold tableRowTeam in H. bind_inv H.
  apply withScore_OK in H. destruct H as (g & s & b & tt & _ & _ & _ & _ & ->).
  exact (group_shaped rt rowRx_flags (Nat.eqb 1) upper3 _
           (upper3_letters rt rowRx_flags (or_intror Hcase)) rowRx 1
           rowRx_code_group eq_refl eq_refl x m Hm).
Qed.
End Codes.

(** X17. When the page embeds no usable standings, the code of every
    team [parseFromHtml] returns is a text of exactly three Basic Latin
    letters. From the inline rows the three are capital letters; from the
    table rows, whose pattern ignores case, small letters pass as they
    are and the code is not put in upper case. *)
Theorem parseFromHtml_codes (rt : Runtime) (html : ustring) (ts : list Team) :
  ascii_case rt ->
  embeddedTeams rt html = OK None ->
  parseFromHtml rt html = OK ts ->
  Forall (coded is_letter) ts /\
  (RegExp.matchAll rt Patterns.rx_flags Patterns.rx html <> [] ->
   Forall (coded is_upper) ts).
Proof.
  intros Hcase He H. unfold parseFromHtml in H. rewrite He in H. simpl in H.
  bind_inv H. bind_inv H. injection H as <-.
  assert (H1 : Forall (coded is_upper) x).
  { refine (mapM_Forall inlineTeam _ _ _ x E).
    intros m t Hm Ht. exact (inlineTeam_coded rt html m t Hm Ht). }
  destruct x as [|t0 x].
  - split.
    + apply sortTeams_Forall.
      refine (mapM_Forall tableRowTeam _ _ _ x0 E0).
      intros m t Hm Ht. exact (tableRowTeam_coded rt Hcase html m t Hm Ht).
    + intros Hne. destruct (RegExp.matchAll rt Patterns.rx_flags Patterns.rx html)
        as [|m0 ms]; [contradiction|].
      simpl in E. destruct (inlineTeam m0); [|discriminate].
      destruct (mapM inlineTeam ms); discriminate.
  - injection E0 as <-. split; intros; apply sortTeams_Forall; [|exact H1].
    eapply Forall_impl; [|exact H1]. exact coded_letter.
Qed.

Lemma parseFromHtml_codes_witness :
  Forall (coded is_letter) [lower_norway] /\
  (RegExp.matchAll basic_runtime Patterns.rx_flags Patterns.rx lower_table_page <> [] ->
   Forall (coded is_upper) [lower_norway]).
Proof.
  apply (parseFromHtml_codes basic_runtime lower_table_page).
  - intros c _. reflexivity.
  - vm_compute. reflexivity.
  - vm_compute. reflexivity.
Defined.
